(** * ansel: the photo-work store and the geometry it relies on

    A shallow embedding of [src/background/store/PhotoWorkStore.ts] and of the
    geometry utilities ([common/util/GeometryUtil]) it is built on, together
    with the properties the specification states about them.

    Conventions of the embedding.
    - A JavaScript [number] is [NaN] or an exact rational ([Qc], canonical
      rationals, so that Leibniz equality is numeric equality).  Rounding,
      infinities and the sign of zero are outside this model; the
      not-a-number sentinel, which the code produces and tests on purpose,
      is inside.  What is stated over it is about comparisons, selections
      and the structure of the data.  Where rounding decides (the test of
      the determinant in [intersectPlainLines]), the code is modelled over
      binary64 floating-point numbers, in the module [Double].
    - A JavaScript string is a [string] of 8-bit characters (the legacy
      sidecar is ASCII).
    - A plain object whose key order is observable (an edit record, the
      [photos] mapping of [ansel.json]) is an association list kept in
      property-enumeration order; an object used only as a dictionary (the
      sections of a [picasa.ini], the registry of directories) is a [gmap].
      Only own properties are modelled.
    - [async] functions are run to completion: an [await] on I/O is a step
      whose outcome is an argument of the model. *)

From Stdlib Require Import ZArith QArith Qcanon Lia Lqa String Ascii Sorted.
From Stdlib Require Floats.
From stdpp Require Import gmap strings list numbers.

Local Open Scope Qc_scope.

(** ** JavaScript numbers *)

Inductive number : Type :=
  | NaN
  | Num (q : Qc).

#[global] Instance number_eq_dec : EqDecision number.
Proof. solve_decision. Defined.

Definition ofZ (z : Z) : number := Num (Q2Qc (inject_Z z)).

Definition nadd (a b : number) : number :=
  match a, b with Num p, Num q => Num (p + q) | _, _ => NaN end.

Definition nsub (a b : number) : number :=
  match a, b with Num p, Num q => Num (p - q) | _, _ => NaN end.

Definition nmul (a b : number) : number :=
  match a, b with Num p, Num q => Num (p * q) | _, _ => NaN end.

(** The model has no infinities: a division by zero yields [NaN].  The code
    modelled below never divides by zero (it divides by the constant
    [0xffff] and by a determinant it has just tested). *)
Definition ndiv (a b : number) : number :=
  match a, b with
  | Num p, Num q => if decide (q = 0) then NaN else Num (p / q)
  | _, _ => NaN
  end.

(** Comparisons: every comparison with [NaN] is false. *)
Definition nle (a b : number) : bool :=
  match a, b with Num p, Num q => bool_decide (p ≤ q) | _, _ => false end.

Definition nlt (a b : number) : bool :=
  match a, b with Num p, Num q => bool_decide (p < q) | _, _ => false end.

Definition nge (a b : number) : bool := nle b a.
Definition ngt (a b : number) : bool := nlt b a.

Definition neq (a b : number) : bool :=
  match a, b with Num p, Num q => bool_decide (p = q) | _, _ => false end.

(** [Math.min] and [Math.abs]. *)
Definition Math_min (a b : number) : number :=
  match a, b with
  | Num p, Num q => Num (if decide (p ≤ q) then p else q)
  | _, _ => NaN
  end.

Definition Math_abs (a : number) : number :=
  match a with
  | Num p => Num (if decide (0 ≤ p) then p else - p)
  | NaN => NaN
  end.

(** Truthiness of a number: [0] and [NaN] are falsy. *)
Definition truthy_number (a : number) : bool :=
  match a with Num p => bool_decide (p ≠ 0) | NaN => false end.

Declare Scope js_scope.
Delimit Scope js_scope with js.
Bind Scope js_scope with number.
Infix "+" := nadd : js_scope.
Infix "-" := nsub : js_scope.
Infix "*" := nmul : js_scope.
Infix "/" := ndiv : js_scope.
Infix "<=?" := nle (at level 70) : js_scope.
Infix "<?" := nlt (at level 70) : js_scope.
Infix ">=?" := nge (at level 70) : js_scope.
Infix ">?" := ngt (at level 70) : js_scope.
Infix "==?" := neq (at level 70) : js_scope.

(** Closed decidable statements (equations between values that contain
    rationals among them): run the decision procedure. *)
Ltac by_compute :=
  lazymatch goal with
  | |- ¬ _ => apply (bool_decide_eq_false_1 _); vm_compute; reflexivity
  | |- _ ≠ _ => apply (bool_decide_eq_false_1 _); vm_compute; reflexivity
  | |- _ => apply (bool_decide_eq_true_1 _); vm_compute; reflexivity
  end.

(** ** Geometry ([common/util/GeometryUtil]) *)

Module Point.
Record t : Type := mk { x : number; y : number }.
End Point.

Module Rect.
Record t : Type := mk { x : number; y : number; width : number; height : number }.
End Rect.

#[global] Instance point_eq_dec : EqDecision Point.t.
Proof. solve_decision. Defined.

#[global] Instance rect_eq_dec : EqDecision Rect.t.
Proof. solve_decision. Defined.

(** [VectorLike = vec2 | [number, number]]: [v[0]] is [v.1], [v[1]] is [v.2]. *)
Abbreviation VectorLike := (number * number)%type.

Inductive Corner : Type := nw | ne | sw | se.

Definition oppositeCorner (c : Corner) : Corner :=
  match c with nw => se | ne => sw | sw => ne | se => nw end.

Definition horizontalAdjacentCorner (c : Corner) : Corner :=
  match c with nw => ne | ne => nw | sw => se | se => sw end.

Definition verticalAdjacentCorner (c : Corner) : Corner :=
  match c with nw => sw | ne => se | sw => nw | se => ne end.

Definition vectorFromPoint (point : Point.t) : VectorLike :=
  (Point.x point, Point.y point).

Definition getRectFromPoints (point1 point2 : Point.t) : Rect.t :=
  {| Rect.x := Math_min (Point.x point1) (Point.x point2);
     Rect.y := Math_min (Point.y point1) (Point.y point2);
     Rect.width := Math_abs (Point.x point1 - Point.x point2)%js;
     Rect.height := Math_abs (Point.y point1 - Point.y point2)%js |}.

Definition getRectFromVectors (vector1 vector2 : VectorLike) : Rect.t :=
  {| Rect.x := Math_min vector1.1 vector2.1;
     Rect.y := Math_min vector1.2 vector2.2;
     Rect.width := Math_abs (vector1.1 - vector2.1)%js;
     Rect.height := Math_abs (vector1.2 - vector2.2)%js |}.

Definition getCornerPointOfRect (rect : Rect.t) (corner : Corner) : Point.t :=
  let x := match corner with
           | nw | sw => Rect.x rect
           | _ => (Rect.x rect + Rect.width rect)%js
           end in
  let y := match corner with
           | nw | ne => Rect.y rect
           | _ => (Rect.y rect + Rect.height rect)%js
           end in
  {| Point.x := x; Point.y := y |}.

Definition getCornerVectorOfRect (rect : Rect.t) (corner : Corner) : VectorLike :=
  let x := match corner with
           | nw | sw => Rect.x rect
           | _ => (Rect.x rect + Rect.width rect)%js
           end in
  let y := match corner with
           | nw | ne => Rect.y rect
           | _ => (Rect.y rect + Rect.height rect)%js
           end in
  (x, y).

(** [intersectPlainLines] writes its two results into [outFactors[0]] and
    [outFactors[1]]; both are written on every call, so the model returns
    the pair. *)
Definition intersectPlainLines
    (startX1 startY1 endX1 endY1 startX2 startY2 endX2 endY2 : number)
    : number * number :=
  let vX1 := (endX1 - startX1)%js in
  let vY1 := (endY1 - startY1)%js in
  let vX2 := (endX2 - startX2)%js in
  let vY2 := (endY2 - startY2)%js in
  let f := (vX2 * vY1 - vX1 * vY2)%js in
  if (f ==? ofZ 0)%js then (NaN, NaN)
  else
    let vX3 := (startX2 - startX1)%js in
    let vY3 := (startY2 - startY1)%js in
    (((vX2 * vY3 - vX3 * vY2) / f)%js, ((vX1 * vY3 - vX3 * vY1) / f)%js).

Definition intersectVectorLines (start1 end1 start2 end2 : VectorLike)
    : number * number :=
  intersectPlainLines start1.1 start1.2 end1.1 end1.2
                      start2.1 start2.2 end2.1 end2.2.

Definition epsilon : number := Num (Q2Qc (1 # 10000000)).

(** The pairs [(polygonPoints[i], polygonPoints[j])] the loop
    [for (i = 0, j = size - 1; i < size; j = i++)] visits, in order: every
    vertex with its predecessor, the first one with the last. *)
Fixpoint edgesFrom (prev : VectorLike) (points : list VectorLike)
    : list (VectorLike * VectorLike) :=
  match points with
  | [] => []
  | p :: rest => (p, prev) :: edgesFrom p rest
  end.

Definition polygonEdges (polygonPoints : list VectorLike)
    : list (VectorLike * VectorLike) :=
  match list.last polygonPoints with
  | Some l => edgesFrom l polygonPoints
  | None => []
  end.

(** One iteration of the loop of [cutLineWithPolygon]: [bestFactor] is
    [number | null]. *)
Definition cutStep (lineStart lineEnd : VectorLike) (bestFactor : option number)
    (edge : VectorLike * VectorLike) : option number :=
  let '(segmentStart, segmentEnd) := edge in
  let outFactors := intersectVectorLines segmentStart segmentEnd lineStart lineEnd in
  if (outFactors.1 >=? ofZ 0)%js && (outFactors.1 <=? ofZ 1)%js then
    match bestFactor with
    | None => Some outFactors.2
    | Some best =>
        if (if (outFactors.2 >=? epsilon)%js && (best >=? epsilon)%js
            then (outFactors.2 <? best)%js
            else (outFactors.2 >? best)%js)
        then Some outFactors.2
        else bestFactor
    end
  else bestFactor.

Definition cutFactor (lineStart lineEnd : VectorLike)
    (polygonPoints : list VectorLike) : option number :=
  foldl (cutStep lineStart lineEnd) None (polygonEdges polygonPoints).

(** [cutLineWithPolygon] returns the point and, through the optional
    [outFactor] array, the factor ([NaN] when there is no cut point); the
    model returns both. *)
Definition cutLineWithPolygon (lineStart lineEnd : VectorLike)
    (polygonPoints : list VectorLike) : option VectorLike * number :=
  let bestFactor := cutFactor lineStart lineEnd polygonPoints in
  (match bestFactor with
   | None => None
   | Some best =>
       Some ((lineStart.1 + best * (lineEnd.1 - lineStart.1))%js,
             (lineStart.2 + best * (lineEnd.2 - lineStart.2))%js)
   end,
   match bestFactor with None => NaN | Some best => best end).

(** A point with numeric coordinates. *)
Definition pt (x y : Qc) : Point.t := Point.mk (Num x) (Num y).

(** The determinant [intersectPlainLines] tests, on numeric coordinates. *)
Definition determinant (sx1 sy1 ex1 ey1 sx2 sy2 ex2 ey2 : Qc) : Qc :=
  (ex2 - sx2) * (ey1 - sy1) - (ex1 - sx1) * (ey2 - sy2).

(** The test of [cutLineWithPolygon] that the line cuts a segment: the
    factor on the segment lies in [[0, 1]]. *)
Definition cutsSegment (outFactors : number * number) : bool :=
  (outFactors.1 >=? ofZ 0)%js && (outFactors.1 <=? ofZ 1)%js.


(** One update of [bestFactor] by the line factor of a cut edge. *)
Definition betterFactor (bestFactor : option number) (c : number) : option number :=
  match bestFactor with
  | None => Some c
  | Some best =>
      if (if (c >=? epsilon)%js && (best >=? epsilon)%js
          then (c <? best)%js else (c >? best)%js)
      then Some c else bestFactor
  end.



(** The unit square [(0,0)-(1,0)-(1,1)-(0,1)]. *)
Definition unitSquare : list VectorLike :=
  [(ofZ 0, ofZ 0); (ofZ 1, ofZ 0); (ofZ 1, ofZ 1); (ofZ 0, ofZ 1)].

Definition half : number := Num (Q2Qc (1 # 2)).

(** ** Strings *)

Definition codeOf (c : ascii) : N := N_of_ascii c.

(** [\d] *)
Definition isDigit (c : ascii) : bool :=
  (48 <=? codeOf c)%N && (codeOf c <=? 57)%N.

(** [[0-9a-f]] *)
Definition isLowerHex (c : ascii) : bool :=
  isDigit c || ((97 <=? codeOf c)%N && (codeOf c <=? 102)%N).

(** [[-0-9.]] *)
Definition isTiltChar (c : ascii) : bool :=
  isDigit c || bool_decide (c = "-"%char) || bool_decide (c = "."%char).

(** [[ \t]] *)
Definition isBlank (c : ascii) : bool :=
  bool_decide (c = " "%char) || bool_decide (codeOf c = 9%N).

(** What [.] does not match: the line terminators (of the 8-bit characters,
    line feed and carriage return). *)
Definition isLineTerminator (c : ascii) : bool :=
  bool_decide (codeOf c = 10%N) || bool_decide (codeOf c = 13%N).

Fixpoint allChars (f : ascii → bool) (s : string) : bool :=
  match s with
  | EmptyString => true
  | String c rest => f c && allChars f rest
  end.

(** [s] without the prefix [p], when it starts with [p]. *)
Fixpoint stripPrefix (p s : string) : option string :=
  match p, s with
  | EmptyString, _ => Some s
  | String a p', String b s' => if decide (a = b) then stripPrefix p' s' else None
  | String _ _, EmptyString => None
  end.

(** [s] without its last character, when that is [c]. *)
Fixpoint stripLast (c : ascii) (s : string) : option string :=
  match s with
  | EmptyString => None
  | String a EmptyString => if decide (a = c) then Some EmptyString else None
  | String a rest => String a <$> stripLast c rest
  end.

(** The longest prefix of characters that satisfy [f], and the rest. *)
Fixpoint spanChars (f : ascii → bool) (s : string) : string * string :=
  match s with
  | EmptyString => (EmptyString, EmptyString)
  | String c rest =>
      if f c then let '(taken, remaining) := spanChars f rest in (String c taken, remaining)
      else (EmptyString, s)
  end.

(** [s.split(sep)] for a one-character separator: never empty. *)
Fixpoint String_split (sep : ascii) (s : string) : list string :=
  match s with
  | EmptyString => [EmptyString]
  | String c rest =>
      if decide (c = sep) then EmptyString :: String_split sep rest
      else match String_split sep rest with
           | part :: parts => String c part :: parts
           | [] => [String c EmptyString]
           end
  end.

(** The value of a digit in a radix up to 16 ([0-9], [a-f], [A-F]). *)
Definition digitValue (c : ascii) : option Z :=
  let n := Z.of_N (codeOf c) in
  if (48 <=? n)%Z && (n <=? 57)%Z then Some (n - 48)%Z
  else if (97 <=? n)%Z && (n <=? 102)%Z then Some (n - 87)%Z
  else if (65 <=? n)%Z && (n <=? 70)%Z then Some (n - 55)%Z
  else None.

(** The digits of [s] in [radix], as long as they last. *)
Fixpoint leadingDigits (radix : Z) (s : string) : list Z :=
  match s with
  | EmptyString => []
  | String c rest =>
      match digitValue c with
      | Some d => if (d <? radix)%Z then d :: leadingDigits radix rest else []
      | None => []
      end
  end.

Definition digitsValue (radix : Z) (digits : list Z) : Z :=
  foldl (λ acc d, acc * radix + d)%Z 0%Z digits.

(** [parseInt(s, radix)] on a string that starts with its digits: the
    number its leading digits denote, [NaN] without a leading digit.  (The
    strings the store passes are captures of [\d+] and [[0-9a-f]+]: they
    have no white space, sign or [0x] for [parseInt] to skip.) *)
Definition parseInt (s : string) (radix : Z) : number :=
  match leadingDigits radix s with
  | [] => NaN
  | digits => ofZ (digitsValue radix digits)
  end.

(** [parseFloat(s)] on a string without white space and exponent (the
    captures of [[-0-9.]+]): an optional sign, digits, an optional point and
    digits; the longest such prefix that has a digit, else [NaN]. *)
Definition parseFloat (s : string) : number :=
  let '(negative, unsigned) :=
    match s with
    | String "-" rest => (true, rest)
    | String "+" rest => (false, rest)
    | _ => (false, s)
    end in
  let '(intDigits, afterInt) := spanChars isDigit unsigned in
  let fracDigits :=
    match afterInt with
    | String "." rest => (spanChars isDigit rest).1
    | _ => EmptyString
    end in
  if bool_decide (intDigits = EmptyString) && bool_decide (fracDigits = EmptyString)
  then NaN
  else
    let intValue := digitsValue 10 (leadingDigits 10 intDigits) in
    let fracValue := digitsValue 10 (leadingDigits 10 fracDigits) in
    let magnitude :=
      (Q2Qc (inject_Z intValue)
       + Q2Qc (inject_Z fracValue) / Q2Qc (inject_Z (10 ^ Z.of_nat (String.length fracDigits))))%Qc in
    Num (if negative then (- magnitude)%Qc else magnitude).

(** [Array.prototype.sort()] on strings: ascending by character codes.
    The order is total, so the result does not depend on the algorithm. *)
Fixpoint insertSorted (key : string) (sorted : list string) : list string :=
  match sorted with
  | [] => [key]
  | k :: rest => if String.leb key k then key :: sorted else k :: insertSorted key rest
  end.

Definition Array_sort (keys : list string) : list string :=
  foldr insertSorted [] keys.

(** ** Plain objects, in property order

    The own properties of an object are enumerated with the array indices
    first, in ascending numeric order, and the other keys after them in the
    order of their creation. *)

(** The array index a key is, if it is one: the canonical decimal string
    of an integer below [2^32 - 1]. *)
Definition arrayIndex (key : string) : option Z :=
  match key with
  | EmptyString => None
  | String c rest =>
      if allChars isDigit key
         && (bool_decide (c ≠ "0"%char) || bool_decide (rest = EmptyString))
      then
        let n := digitsValue 10 (leadingDigits 10 key) in
        if (n <? 2 ^ 32 - 1)%Z then Some n else None
      else None
  end.

Section Obj.
Context {V : Type}.

Fixpoint getProp (obj : list (string * V)) (key : string) : option V :=
  match obj with
  | [] => None
  | (k, v) :: rest => if decide (k = key) then Some v else getProp rest key
  end.

(** Assignment to a property the object has: the value changes, the
    place does not. *)
Fixpoint replaceProp (obj : list (string * V)) (key : string) (value : V)
    : list (string * V) :=
  match obj with
  | [] => []
  | (k, v) :: rest =>
      if decide (k = key) then (k, value) :: rest
      else (k, v) :: replaceProp rest key value
  end.

(** A new array index goes before the first larger index or other key. *)
Fixpoint insertIndexProp (obj : list (string * V)) (index : Z) (key : string)
    (value : V) : list (string * V) :=
  match obj with
  | [] => [(key, value)]
  | (k, v) :: rest =>
      match arrayIndex k with
      | Some i =>
          if (i <? index)%Z then (k, v) :: insertIndexProp rest index key value
          else (key, value) :: obj
      | None => (key, value) :: obj
      end
  end.

(** [obj[key] = value] *)
Definition setProp (obj : list (string * V)) (key : string) (value : V)
    : list (string * V) :=
  match getProp obj key with
  | Some _ => replaceProp obj key value
  | None =>
      match arrayIndex key with
      | Some index => insertIndexProp obj index key value
      | None => obj ++ [(key, value)]
      end
  end.

(** [delete obj[key]] *)
Definition deleteProp (obj : list (string * V)) (key : string)
    : list (string * V) :=
  filter (λ kv, kv.1 ≠ key) obj.

(** [Object.keys(obj)] *)
Definition Object_keys (obj : list (string * V)) : list string := obj.*1.

(** [toCanonical] of [PhotoWorkStore.ts]: a new object that gets the
    properties of [obj] in the order of the sorted keys. *)
Definition toCanonical (obj : list (string * V)) : list (string * V) :=
  let sortedKeys := Array_sort (Object_keys obj) in
  foldl (λ sortedObj key,
           match getProp obj key with
           | Some value => setProp sortedObj key value
           | None => sortedObj
           end) [] sortedKeys.
End Obj.

(** ** Edit records ([PhotoWork]) *)

(** The values an edit record holds: numbers ([rotationTurns], [tilt]),
    booleans ([flagged]) and rectangles ([cropRect]). *)
Inductive Value : Type :=
  | VNumber (n : number)
  | VBoolean (b : bool)
  | VRect (r : Rect.t).

#[global] Instance Value_eq_dec : EqDecision Value.
Proof. solve_decision. Defined.

(** [PhotoWork]: a sparse object of optional edit attributes. *)
Abbreviation PhotoWork := (list (string * Value)).

(** [photoWork.tilt] where a number is expected: [tilt?: number]. *)
Definition tiltOf (photoWork : PhotoWork) : option number :=
  match getProp photoWork "tilt" with
  | Some (VNumber n) => Some n
  | _ => None
  end.

(** ** The legacy rule importer *)

(** *** The regular expressions of [PhotoWorkStore.ts]

    Each matcher returns the capture group [match[1]] on a match. *)

(** [sectionStartRegExp]: an opening bracket, the capture (any characters
    but line terminators) and a closing bracket, which ends the line. *)
Definition sectionStartRegExp (line : string) : option string :=
  rest ← stripPrefix "[" line;
  name ← stripLast "]" rest;
  if allChars (λ c, negb (isLineTerminator c)) name then Some name else None.

(** [rotateRuleRegExp]: [rotate=rotate(], the capture (one or more digits)
    and a closing parenthesis, which ends the rule. *)
Definition rotateRuleRegExp (rule : string) : option string :=
  rest ← stripPrefix "rotate=rotate(" rule;
  digits ← stripLast ")" rest;
  if bool_decide (digits ≠ "") && allChars isDigit digits then Some digits else None.

(** [filtersRuleRegExp]: [filters=] and the capture (any characters but
    line terminators) up to the end of the rule. *)
Definition filtersRuleRegExp (rule : string) : option string :=
  rest ← stripPrefix "filters=" rule;
  if allChars (λ c, negb (isLineTerminator c)) rest then Some rest else None.

(** [cropRuleRegExp]: [crop=rect64(], the capture (one or more of
    [0-9a-f]) and a closing parenthesis, which ends the rule. *)
Definition cropRuleRegExp (rule : string) : option string :=
  rest ← stripPrefix "crop=rect64(" rule;
  hex ← stripLast ")" rest;
  if bool_decide (hex ≠ "") && allChars isLowerHex hex then Some hex else None.

(** [ignoredRulesRegExp.test]: a rule of spaces and tabs only (or empty),
    or one that starts with [backuphash=], [width=], [height=], [moddate=]
    or [textactive=0]. *)
Definition ignoredRulesRegExp (rule : string) : bool :=
  allChars isBlank rule
  || bool_decide (is_Some (stripPrefix "backuphash=" rule))
  || bool_decide (is_Some (stripPrefix "width=" rule))
  || bool_decide (is_Some (stripPrefix "height=" rule))
  || bool_decide (is_Some (stripPrefix "moddate=" rule))
  || bool_decide (is_Some (stripPrefix "textactive=0" rule)).

(** [tiltFilterRegExp]: [tilt=1,], the capture (one or more of [-0-9.]),
    [,0], any one character but a line terminator, and zeros up to the end
    of the filter.  The capture cannot hold a comma, so it is
    the whole run of [[-0-9.]] before the first other character. *)
Definition tiltFilterRegExp (filter : string) : option string :=
  rest ← stripPrefix "tilt=1," filter;
  let '(angle, afterAngle) := spanChars isTiltChar rest in
  tail ← stripPrefix ",0" afterAngle;
  match tail with
  | String anyChar zeros =>
      if bool_decide (angle ≠ "") && negb (isLineTerminator anyChar)
         && allChars (λ c, bool_decide (c = "0"%char)) zeros
      then Some angle else None
  | EmptyString => None
  end.

(** [cropFilterRegExp]: [crop64=1,] and the capture (one or more of
    [0-9a-f]) up to the end of the filter. *)
Definition cropFilterRegExp (filter : string) : option string :=
  hex ← stripPrefix "crop64=1," filter;
  if bool_decide (hex ≠ "") && allChars isLowerHex hex then Some hex else None.

(** *** The collaborators of the importer

    Functions of the repository and of [gl-matrix] that
    [createPhotoWorkFromPicasaRules] calls and that are not among the
    sources at hand; the importer is modelled over any such functions. *)
Record Collaborators : Type := {
  (** [mat4] of [gl-matrix] *)
  mat4 : Type;
  (** [rotate(photoWork, turns, flip)] of [common/util/EffectsUtil], which
      changes the edit record in place: the record after the call. *)
  rotate : PhotoWork → number → bool → PhotoWork;
  (** [createProjectionMatrix({ width, height }, ExifOrientation.Up, photoWork)]
      of [common/util/CameraMetrics]. *)
  createProjectionMatrix : number → number → PhotoWork → mat4;
  (** [vec2.transformMat4(vec2.create(), point, matrix)] *)
  transformMat4 : VectorLike → mat4 → VectorLike;
  (** [cornerPointOfRect], [centerOfRect] and [scaleRectToFitBorders] of
      [common/util/GeometryUtil]. *)
  cornerPointOfRect : Rect.t → Corner → VectorLike;
  centerOfRect : Rect.t → VectorLike;
  scaleRectToFitBorders : VectorLike → number * number → list VectorLike → Rect.t;
}.

(** Modelled from the spec: [rectFromPoints] of [common/util/GeometryUtil],
    which [PhotoWorkStore.ts] imports and calls on two [[x, y]] arrays, is
    not among the sources at hand.  The specification describes it as
    the rectangle "constructed from two arbitrary corner points by taking
    min/abs", which is what [getRectFromVectors] of the geometry source
    does. *)
Definition rectFromPoints (point1 point2 : VectorLike) : Rect.t :=
  {| Rect.x := Math_min point1.1 point2.1;
     Rect.y := Math_min point1.2 point2.2;
     Rect.width := Math_abs (point1.1 - point2.1)%js;
     Rect.height := Math_abs (point1.2 - point2.2)%js |}.

(** *** Translation of a rule list *)

(** The variables of the loop over the rules. *)
Record ImportState : Type := {
  photoWork : PhotoWork;
  importProblems : list string;
  picasaCropRect : option string;
}.

(** A [string | null] that is truthy. *)
Definition truthyString (s : option string) : bool :=
  match s with Some s => bool_decide (s ≠ "") | None => false end.

(** The four lines the loop runs on a crop value, in a [crop64] filter and
    in a [crop=] rule alike:
    [if (!picasaCropRect) { picasaCropRect = match[1] }
     else if (picasaCropRect !== match[1]) { importProblems.push(...) }]. *)
Definition seeCropRect (st : ImportState) (value : string) : ImportState :=
  if negb (truthyString (picasaCropRect st)) then
    {| photoWork := photoWork st; importProblems := importProblems st;
       picasaCropRect := Some value |}
  else if bool_decide (picasaCropRect st ≠ Some value) then
    {| photoWork := photoWork st;
       importProblems := importProblems st ++
         ["Duplicate crop rects: " +:+ default "" (picasaCropRect st) +:+ " and " +:+ value];
       picasaCropRect := picasaCropRect st |}
  else st.

(** [-11.3848], the factor from a Picasa tilt to a tilt of ours. *)
Definition tiltFactor : number := Num (Q2Qc (-113848 # 10000)).

(** The body of the loop over the filters of a [filters=] rule. *)
Definition processFilter (st : ImportState) (filter : string) : ImportState :=
  match tiltFilterRegExp filter with
  | Some angle =>
      let picasaTilt := parseFloat angle in
      let tilt :=
        match tiltOf (photoWork st) with
        | Some t => if truthy_number t then t else ofZ 0
        | None => ofZ 0
        end in
      {| photoWork := setProp (photoWork st) "tilt" (VNumber (tilt + picasaTilt * tiltFactor)%js);
         importProblems := importProblems st;
         picasaCropRect := picasaCropRect st |}
  | None =>
      match cropFilterRegExp filter with
      | Some hex => seeCropRect st hex
      | None =>
          if bool_decide (String.length filter ≠ 0%nat) then
            {| photoWork := photoWork st;
               importProblems := importProblems st ++ ["Unknown filter: " +:+ filter];
               picasaCropRect := picasaCropRect st |}
          else st
      end
  end.

Section Importer.
Context (E : Collaborators).

(** The body of the loop over the rules. *)
Definition processRule (st : ImportState) (rule : string) : ImportState :=
  match rotateRuleRegExp rule with
  | Some digits =>
      {| photoWork := rotate E (photoWork st) (parseInt digits 10) false;
         importProblems := importProblems st;
         picasaCropRect := picasaCropRect st |}
  | None =>
      if bool_decide (rule = "star=yes") then
        {| photoWork := setProp (photoWork st) "flagged" (VBoolean true);
           importProblems := importProblems st;
           picasaCropRect := picasaCropRect st |}
      else
        match filtersRuleRegExp rule with
        | Some filters => foldl processFilter st (String_split ";" filters)
        | None =>
            match cropRuleRegExp rule with
            | Some hex => seeCropRect st hex
            | None =>
                if negb (ignoredRulesRegExp rule) then
                  {| photoWork := photoWork st;
                     importProblems := importProblems st ++ ["Unknown rule: " +:+ rule];
                     picasaCropRect := picasaCropRect st |}
                else st
            end
        end
  end.

(** The state after the loop [for (const rule of picasaRules)]. *)
Definition importRules (picasaRules : list string) : ImportState :=
  foldl processRule
    {| photoWork := []; importProblems := []; picasaCropRect := None |}
    picasaRules.
End Importer.

(** [while (picasaCropRect.length < 16) picasaCropRect = '0' + picasaCropRect],
    which runs at most sixteen times. *)
Fixpoint padCropRect (fuel : nat) (picasaCropRect : string) : string :=
  match fuel with
  | O => picasaCropRect
  | S fuel' =>
      if (String.length picasaCropRect <? 16)%nat
      then padCropRect fuel' ("0" +:+ picasaCropRect)
      else picasaCropRect
  end.

(** [s.substring(from, to)] for [from <= to]. *)
Definition String_substring (s : string) (from to : nat) : string :=
  String.substring from (to - from) s.

(** The crop rectangle of a packed crop value of at most sixteen digits, on
    the canvas of the master image. *)
Definition decodeCropRect (picasaCropRect : string) (masterWidth masterHeight : number)
    : Rect.t :=
  let picasaCropRect := padCropRect 16 picasaCropRect in
  rectFromPoints
    ((parseInt (String_substring picasaCropRect 0 4) 16 / ofZ 65535 * masterWidth)%js,
     (parseInt (String_substring picasaCropRect 4 8) 16 / ofZ 65535 * masterHeight)%js)
    ((parseInt (String_substring picasaCropRect 8 12) 16 / ofZ 65535 * masterWidth)%js,
     (parseInt (String_substring picasaCropRect 12 16) 16 / ofZ 65535 * masterHeight)%js).

(** [picasaCanvasRect] as it stands before the projection, with the import
    problems after it was computed: the decoded crop rectangle, or the
    whole master image when there is no crop value or it is too long. *)
Definition picasaCanvasRect (st : ImportState) (masterWidth masterHeight : number)
    : Rect.t * list string :=
  let whole := {| Rect.x := ofZ 0; Rect.y := ofZ 0;
                  Rect.width := masterWidth; Rect.height := masterHeight |} in
  match picasaCropRect st with
  | Some crop =>
      if truthyString (Some crop) then
        if (16 <? String.length crop)%nat then
          (whole, importProblems st ++ ["Invalid crop rect (length > 16): " +:+ crop])
        else (decodeCropRect crop masterWidth masterHeight, importProblems st)
      else (whole, importProblems st)
  | None => (whole, importProblems st)
  end.

Section Reconciliation.
Context (E : Collaborators).

(** The block [if (picasaCropRect || photoWork.tilt) { ... }]: the edit
    record with its crop rectangle, and the import problems. *)
Definition reconcileCrop (st : ImportState) (masterWidth masterHeight : number)
    : PhotoWork * list string :=
  if truthyString (picasaCropRect st)
     || match tiltOf (photoWork st) with Some t => truthy_number t | None => false end
  then
    let '(canvasRect, problems) := picasaCanvasRect st masterWidth masterHeight in
    let projectionMatrix :=
      createProjectionMatrix E masterWidth masterHeight (photoWork st) in
    let borderPolygon :=
      [transformMat4 E (cornerPointOfRect E canvasRect nw) projectionMatrix;
       transformMat4 E (cornerPointOfRect E canvasRect ne) projectionMatrix;
       transformMat4 E (cornerPointOfRect E canvasRect se) projectionMatrix;
       transformMat4 E (cornerPointOfRect E canvasRect sw) projectionMatrix] in
    let projectedCropRectCenter :=
      transformMat4 E (centerOfRect E canvasRect) projectionMatrix in
    let projectedCropRectSize :=
      if bool_decide (getProp (photoWork st) "rotationTurns" = Some (VNumber (ofZ 1)))
         || bool_decide (getProp (photoWork st) "rotationTurns" = Some (VNumber (ofZ 3)))
      then (Rect.height canvasRect, Rect.width canvasRect)
      else (Rect.width canvasRect, Rect.height canvasRect) in
    (setProp (photoWork st) "cropRect"
       (VRect (scaleRectToFitBorders E projectedCropRectCenter projectedCropRectSize
                 borderPolygon)),
     problems)
  else (photoWork st, importProblems st).

(** The message of [console.warn], when there is an import problem. *)
Definition importWarning (directoryPath photoBasename : string)
    (problems : list string) : option string :=
  match problems with
  | [] => None
  | _ =>
      Some (foldl (λ msg problem, msg +:+ String (ascii_of_nat 10) "  - " +:+ problem)
              ("Picasa import is incomplete for " +:+ directoryPath +:+ "/"
               +:+ photoBasename +:+ ":")
              problems)
  end.

(** [createPhotoWorkFromPicasaRules]: the edit record it returns and the
    warning it logs. *)
Definition createPhotoWorkFromPicasaRules (picasaRules : list string)
    (directoryPath photoBasename : string) (masterWidth masterHeight : number)
    : PhotoWork * option string :=
  let st := importRules E picasaRules in
  let '(photoWork, problems) := reconcileCrop st masterWidth masterHeight in
  (photoWork, importWarning directoryPath photoBasename problems).
End Reconciliation.

(** Collaborators that leave everything as it is, for examples on rule
    lists whose translation does not depend on them. *)
Definition inertCollaborators : Collaborators :=
  {| mat4 := unit;
     rotate := λ photoWork _ _, photoWork;
     createProjectionMatrix := λ _ _ _, tt;
     transformMat4 := λ point _, point;
     cornerPointOfRect := getCornerVectorOfRect;
     centerOfRect := λ rect, (Rect.x rect, Rect.y rect);
     scaleRectToFitBorders := λ center size _,
       {| Rect.x := center.1; Rect.y := center.2;
          Rect.width := size.1; Rect.height := size.2 |} |}.

(** *** The packed crop values of a rule list

    The values the loop meets, in its order: those of the [crop64] filters
    of a [filters=] rule and that of a [crop=] rule. *)
Definition cropValuesOfFilter (filter : string) : list string :=
  match tiltFilterRegExp filter with
  | Some _ => []
  | None => match cropFilterRegExp filter with Some hex => [hex] | None => [] end
  end.

Definition cropValuesOfRule (rule : string) : list string :=
  match rotateRuleRegExp rule with
  | Some _ => []
  | None =>
      if bool_decide (rule = "star=yes") then []
      else match filtersRuleRegExp rule with
           | Some filters => String_split ";" filters ≫= cropValuesOfFilter
           | None => match cropRuleRegExp rule with Some hex => [hex] | None => [] end
           end
  end.

Definition cropValues (picasaRules : list string) : list string :=
  picasaRules ≫= cropValuesOfRule.

(** The duplicate-crop anomalies among import problems. *)
Definition duplicateCropProblem (first later : string) : string :=
  "Duplicate crop rects: " +:+ first +:+ " and " +:+ later.

Definition isDuplicateCropProblem (problem : string) : bool :=
  bool_decide (is_Some (stripPrefix "Duplicate crop rects: " problem)).

(** What a run of crop values does to [picasaCropRect] and which
    duplicate-crop anomalies it adds, from a given [picasaCropRect] on. *)
Fixpoint cropRectAfter (seen : option string) (values : list string) : option string :=
  match values with
  | [] => seen
  | value :: rest =>
      cropRectAfter (if truthyString seen then seen else Some value) rest
  end.

Fixpoint duplicatesAfter (seen : option string) (values : list string) : list string :=
  match values with
  | [] => []
  | value :: rest =>
      (if truthyString seen && bool_decide (seen ≠ Some value)
       then [duplicateCropProblem (default "" seen) value] else [])
      ++ duplicatesAfter (if truthyString seen then seen else Some value) rest
  end.


(** The crop value and the duplicate-crop anomalies of a state. *)
Definition cropView (st : ImportState) : option string * list string :=
  (picasaCropRect st, filter (λ p, isDuplicateCropProblem p = true) (importProblems st)).

(** *** The section parser of [fetchPicasaIni] *)

(** [PicasaData]: the rules of each photo of a [picasa.ini]. *)
Module PicasaData.
Record t : Type := mk { photos : gmap string (list string) }.
End PicasaData.

(** The variables of the promise body of [fetchPicasaIni]. *)
Record SectionParser : Type := {
  picasaData : PicasaData.t;
  currentSectionKey : option string;
  currentSectionRules : list string;
}.

Section SectionParser.
(** The picasa data of the edited images, of which the directory holds
    the originals ([null] in other directories). *)
Context (editedPicasaData : option PicasaData.t).

Definition flushCurrentSection (p : SectionParser) : SectionParser :=
  match currentSectionKey p with
  | Some key =>
      if truthyString (Some key) then
        let editedSectionRules :=
          edited ← editedPicasaData; PicasaData.photos edited !! key in
        let rules :=
          match editedSectionRules with
          | Some edited => currentSectionRules p ++ edited
          | None => currentSectionRules p
          end in
        {| picasaData :=
             PicasaData.mk (<[key := rules]> (PicasaData.photos (picasaData p)));
           currentSectionKey := None;
           currentSectionRules := [] |}
      else p
  | None => p
  end.

(** The handler of the [line] event. *)
Definition onLine (p : SectionParser) (line : string) : SectionParser :=
  match sectionStartRegExp line with
  | Some name =>
      let p := flushCurrentSection p in
      {| picasaData := picasaData p;
         currentSectionKey := Some name;
         currentSectionRules := currentSectionRules p |}
  | None =>
      {| picasaData := picasaData p;
         currentSectionKey := currentSectionKey p;
         currentSectionRules := currentSectionRules p ++ [line] |}
  end.

(** The lines of the file, then the [close] event: what the promise
    resolves to. *)
Definition parsePicasaIni (lines : list string) : PicasaData.t :=
  picasaData
    (flushCurrentSection
       (foldl onLine
          {| picasaData := PicasaData.mk ∅;
             currentSectionKey := None;
             currentSectionRules := [] |}
          lines)).
End SectionParser.

(** The names of the section headers of a file, in order. *)
Definition sectionNames (lines : list string) : list string :=
  omap sectionStartRegExp lines.

(** ** The directory work cache ([DirectoryWork]) *)

(** [DirectoryWorkData]: the data as it is stored in [ansel.json]. *)
Module DirectoryWorkData.
Record t : Type := mk { photos : list (string * PhotoWork) }.
End DirectoryWorkData.

(** [DirectoryData]: all work data about one directory.  Its optional
    field [picasaData] is [picasaDataOf] here ([picasaData] is the variable
    of the section parser above). *)
Record DirectoryData : Type := {
  anselData : DirectoryWorkData.t;
  picasaDataOf : option PicasaData.t;
}.

Definition refetchInterval : Z := 30000.
Definition storeDelay : Z := 2000.

(** The fields of a [DirectoryWork].  [runningFetch] is [true] while the
    promise of a fetch is pending. *)
Record DirectoryWork : Type := {
  directoryPath : string;
  data : option DirectoryData;
  lastFetchTime : Z;
  runningFetch : bool;
  isStoreRunning : bool;
  needsStoreFollowup : bool;
}.

(** [new DirectoryWork(directoryPath)] *)
Definition newDirectoryWork (directoryPath : string) : DirectoryWork :=
  {| directoryPath := directoryPath; data := None; lastFetchTime := 0;
     runningFetch := false; isStoreRunning := false; needsStoreFollowup := false |}.

Definition isIdle (dw : DirectoryWork) : bool :=
  negb (runningFetch dw) && negb (isStoreRunning dw) && negb (needsStoreFollowup dw).

(** [fetchAnselJson], given what [ansel.json] holds if it exists. *)
Definition fetchAnselJson (sidecar : option DirectoryWorkData.t) : DirectoryWorkData.t :=
  match sidecar with
  | None => DirectoryWorkData.mk []
  | Some stored => stored
  end.

(** What the two reads of a fetch come to: the results of [fetchAnselJson]
    and of [fetchPicasaIni] ([None] for a read that fails), and the time
    [Date.now()] when they are there. *)
Record FetchIO : Type := {
  anselJson : option DirectoryWorkData.t;
  picasaIni : option (option PicasaData.t);
  settledAt : Z;
}.

(** The value of [Promise.all([...]).then(...)], [None] when it rejects. *)
Definition fetched (io : FetchIO) : option DirectoryData :=
  anselData ← anselJson io;
  picasaData ← picasaIni io;
  Some {| anselData := anselData; picasaDataOf := picasaData |}.

(** The three branches of [fetchData]. *)
Inductive FetchPlan : Type :=
  | UseCached (cached : DirectoryData)
  | AwaitRunning
  | StartFetch.

Definition fetchPlan (now : Z) (dw : DirectoryWork) : FetchPlan :=
  match data dw with
  | Some cached =>
      if isStoreRunning dw || needsStoreFollowup dw
         || (now <? lastFetchTime dw + refetchInterval)%Z
      then UseCached cached
      else if runningFetch dw then AwaitRunning else StartFetch
  | None => if runningFetch dw then AwaitRunning else StartFetch
  end.

(** The handlers [fetchData] puts on the promise of a fetch. *)
Definition fetchSettled (io : FetchIO) (dw : DirectoryWork) : DirectoryWork :=
  match fetched io with
  | Some fetchedData =>
      {| directoryPath := directoryPath dw; data := Some fetchedData;
         lastFetchTime := settledAt io; runningFetch := false;
         isStoreRunning := isStoreRunning dw;
         needsStoreFollowup := needsStoreFollowup dw |}
  | None =>
      {| directoryPath := directoryPath dw; data := data dw;
         lastFetchTime := lastFetchTime dw; runningFetch := false;
         isStoreRunning := isStoreRunning dw;
         needsStoreFollowup := needsStoreFollowup dw |}
  end.

(** [await this.fetchData()]: the data the caller goes on with ([None]
    when the fetch fails) and the cache when it does.  A caller that
    awaits a pending fetch goes on after the handlers of that fetch. *)
Definition fetchData (now : Z) (io : FetchIO) (dw : DirectoryWork)
    : option DirectoryData * DirectoryWork :=
  match fetchPlan now dw with
  | UseCached cached => (Some cached, dw)
  | AwaitRunning | StartFetch =>
      (fetched io,
       fetchSettled io
         {| directoryPath := directoryPath dw; data := data dw;
            lastFetchTime := lastFetchTime dw; runningFetch := true;
            isStoreRunning := isStoreRunning dw;
            needsStoreFollowup := needsStoreFollowup dw |})
  end.

Section DirectoryWork.
Context (E : Collaborators).

(** [fetchPhotoWork] after its [await]: the edit record it returns and
    the warning the importer logs on the way. *)
Definition photoWorkOf (data : DirectoryData) (directoryPath photoBasename : string)
    (masterWidth masterHeight : number) : PhotoWork * option string :=
  match getProp (DirectoryWorkData.photos (anselData data)) photoBasename with
  | Some photoWork => (photoWork, None)
  | None =>
      match picasaDataOf data with
      | Some picasaData =>
          match PicasaData.photos picasaData !! photoBasename with
          | Some picasaRules =>
              createPhotoWorkFromPicasaRules E picasaRules directoryPath photoBasename
                masterWidth masterHeight
          | None => ([], None)
          end
      | None => ([], None)
      end
  end.

Definition fetchPhotoWork (now : Z) (io : FetchIO) (dw : DirectoryWork)
    (photoBasename : string) (masterWidth masterHeight : number)
    : option (PhotoWork * option string) * DirectoryWork :=
  let '(data, dw) := fetchData now io dw in
  ((λ data, photoWorkOf data (directoryPath dw) photoBasename masterWidth masterHeight)
     <$> data,
   dw).
End DirectoryWork.

(** What [storePhotoWork] does to [anselData.photos]. *)
Definition storedPhotos (photos : list (string * PhotoWork)) (photoBasename : string)
    (photoWork : PhotoWork) : list (string * PhotoWork) :=
  let isEmpty := bool_decide (length (Object_keys photoWork) = 0%nat) in
  if isEmpty then deleteProp photos photoBasename
  else
    let photoWork := toCanonical photoWork in
    let photos := setProp photos photoBasename photoWork in
    let isNew := negb (bool_decide (is_Some (getProp photos photoBasename))) in
    if isNew then toCanonical photos else photos.

Definition onDataChanged (dw : DirectoryWork) : DirectoryWork :=
  if isStoreRunning dw then
    {| directoryPath := directoryPath dw; data := data dw;
       lastFetchTime := lastFetchTime dw; runningFetch := runningFetch dw;
       isStoreRunning := isStoreRunning dw; needsStoreFollowup := true |}
  else
    {| directoryPath := directoryPath dw; data := data dw;
       lastFetchTime := lastFetchTime dw; runningFetch := runningFetch dw;
       isStoreRunning := true; needsStoreFollowup := needsStoreFollowup dw |}.

(** [storePhotoWork]: the cache after the call, [None] when the fetch at
    its start fails and the call rejects.  The data [fetchData] resolves to
    is the object the cache holds, so the change is a change of the cache. *)
Definition storePhotoWork (now : Z) (io : FetchIO) (dw : DirectoryWork)
    (photoBasename : string) (photoWork : PhotoWork) : option DirectoryWork :=
  let '(fetchedData, dw) := fetchData now io dw in
  match fetchedData with
  | Some data =>
      let data :=
        {| anselData :=
             DirectoryWorkData.mk
               (storedPhotos (DirectoryWorkData.photos (anselData data))
                  photoBasename photoWork);
           picasaDataOf := picasaDataOf data |} in
      Some (onDataChanged
              {| directoryPath := directoryPath dw; data := Some data;
                 lastFetchTime := lastFetchTime dw; runningFetch := runningFetch dw;
                 isStoreRunning := isStoreRunning dw;
                 needsStoreFollowup := needsStoreFollowup dw |})
  | None => None
  end.

(** The store cycle [onDataChanged] starts, once its delay is over: the
    cache and [ansel.json] (what it holds, if it exists) after the cycle
    has removed or written the file. *)
Definition storeCycle (dw : DirectoryWork) (sidecar : option DirectoryWorkData.t)
    : DirectoryWork * option DirectoryWorkData.t :=
  let dw :=
    {| directoryPath := directoryPath dw; data := data dw;
       lastFetchTime := lastFetchTime dw; runningFetch := runningFetch dw;
       isStoreRunning := isStoreRunning dw; needsStoreFollowup := false |} in
  let anselData := anselData <$> data dw in
  let isEmpty :=
    match anselData with
    | None => true
    | Some anselData =>
        bool_decide (length (Object_keys (DirectoryWorkData.photos anselData)) = 0%nat)
    end in
  if isEmpty then (dw, None) else (dw, anselData).

(** The handler of the store promise when it is fulfilled. *)
Definition storeCycleDone (dw : DirectoryWork) : DirectoryWork :=
  let dw :=
    {| directoryPath := directoryPath dw; data := data dw;
       lastFetchTime := lastFetchTime dw; runningFetch := runningFetch dw;
       isStoreRunning := false; needsStoreFollowup := needsStoreFollowup dw |} in
  if needsStoreFollowup dw then onDataChanged dw else dw.

(** The handler of the store promise when it is rejected. *)
Definition storeCycleFailed (dw : DirectoryWork) : DirectoryWork :=
  {| directoryPath := directoryPath dw; data := data dw;
     lastFetchTime := lastFetchTime dw; runningFetch := runningFetch dw;
     isStoreRunning := false; needsStoreFollowup := needsStoreFollowup dw |}.

(** ** The registry of directories *)

Record Registry : Type := {
  directoryWorkByPath : gmap string DirectoryWork;
  directoryWorkCacheSize : Z;
}.

Definition maxDirectoryWorkCacheSize : Z := 100.


(** The body of the loop over [Object.keys(directoryWorkByPath)]. *)
Definition evictIfIdle (registry : Registry) (path : string) : Registry :=
  match directoryWorkByPath registry !! path with
  | Some cachedDirectoryWork =>
      if isIdle cachedDirectoryWork then
        {| directoryWorkByPath := delete path (directoryWorkByPath registry);
           directoryWorkCacheSize := directoryWorkCacheSize registry - 1 |}
      else registry
  | None => registry
  end.

(** [getDirectoryWork]: the instance it returns and the registry after. *)
Definition getDirectoryWork (directoryPath : string) (registry : Registry)
    : DirectoryWork * Registry :=
  match directoryWorkByPath registry !! directoryPath with
  | Some directoryWork => (directoryWork, registry)
  | None =>
      let registry :=
        if (directoryWorkCacheSize registry >=? maxDirectoryWorkCacheSize)%Z
        then foldl evictIfIdle registry (map_to_list (directoryWorkByPath registry)).*1
        else registry in
      let directoryWork := newDirectoryWork directoryPath in
      (directoryWork,
       {| directoryWorkByPath := <[directoryPath := directoryWork]> (directoryWorkByPath registry);
          directoryWorkCacheSize := directoryWorkCacheSize registry + 1 |})
  end.

(** The registry after one access to each path of a list. *)
Definition accessAll (paths : list string) (registry : Registry) : Registry :=
  foldl (λ registry path, (getDirectoryWork path registry).2) registry paths.

(** The counter agrees with the mapping. *)
Definition registryConsistent (registry : Registry) : Prop :=
  directoryWorkCacheSize registry = Z.of_nat (size (directoryWorkByPath registry)).

(** ** Notions the properties of the store are stated with *)

(** A fetch that finds neither an [ansel.json] nor a [picasa.ini]. *)
Definition noSidecars : FetchIO :=
  {| anselJson := Some (fetchAnselJson None); picasaIni := Some None; settledAt := 0 |}.

(** The edit record [{ flagged: true }]. *)
Definition flaggedWork : PhotoWork := [("flagged", VBoolean true)].

(** Two edit records with the same attributes and values, in any order. *)
Definition equivalentRecords (a b : PhotoWork) : Prop :=
  ∀ key, getProp a key = getProp b key.

(** The own mapping of a cache ([{}] before its first fetch). *)
Definition ownPhotos (dw : DirectoryWork) : list (string * PhotoWork) :=
  match data dw with
  | Some data => DirectoryWorkData.photos (anselData data)
  | None => []
  end.

(** The legacy rules a cache holds for a photo. *)
Definition legacyRules (dw : DirectoryWork) (photoBasename : string) : option (list string) :=
  data ← data dw;
  picasaData ← picasaDataOf data;
  PicasaData.photos picasaData !! photoBasename.

(** A cache that holds an own record of [a.jpg] and legacy rules for it. *)
Definition cacheWithLegacyRules : DirectoryWork :=
  {| directoryPath := "/photos";
     data := Some {| anselData := DirectoryWorkData.mk [("a.jpg", flaggedWork)];
                     picasaDataOf := Some (PicasaData.mk {["a.jpg" := ["star=yes"]]}) |};
     lastFetchTime := 0; runningFetch := false;
     isStoreRunning := false; needsStoreFollowup := false |}.



(** What holds of the section parser after any number of lines: every
    recorded section and the open section are named by a header seen so
    far, and a recorded section has a name that is not empty. *)
Definition parsedSoFar (seen : list string) (p : SectionParser) : Prop :=
  (∀ name, is_Some (PicasaData.photos (picasaData p) !! name) →
           name ∈ seen ∧ name ≠ "") ∧
  (∀ name, currentSectionKey p = Some name → name ∈ seen).

(** ** More of the geometry ([common/util/GeometryUtil]) *)

(** One iteration of the loop of [isVectorInPolygon].  The second operand of
    [&&], with its division by [yj - yi], is evaluated only when the first
    one is true. *)
Definition polygonToggle (point : VectorLike) (inside : bool)
    (edge : VectorLike * VectorLike) : bool :=
  let x := point.1 in
  let y := point.2 in
  let '(vertexI, vertexJ) := edge in
  let xi := vertexI.1 in
  let yi := vertexI.2 in
  let xj := vertexJ.1 in
  let yj := vertexJ.2 in
  let intersect :=
    if negb (eqb (yi >? y)%js (yj >? y)%js)
    then (x <? (xj - xi) * (y - yi) / (yj - yi) + xi)%js
    else false in
  if intersect then negb inside else inside.

(** [isVectorInPolygon]: the ray-casting test; its loop visits the same
    pairs [(polygonPoints[i], polygonPoints[j])] as [cutLineWithPolygon]. *)
Definition isVectorInPolygon (point : VectorLike) (polygonPoints : list VectorLike)
    : bool :=
  foldl (polygonToggle point) false (polygonEdges polygonPoints).

(** A rectangle with numeric fields. *)
Definition rect (x y width height : Qc) : Rect.t :=
  Rect.mk (Num x) (Num y) (Num width) (Num height).

(** The polygon of an upright rectangle, given as four [[x, y]] arrays: the
    corners left top, right top, right bottom and left bottom. *)
Definition rectanglePolygon (left top right bottom : Qc) : list VectorLike :=
  [(Num left, Num top); (Num right, Num top);
   (Num right, Num bottom); (Num left, Num bottom)].

(** The constant [intersect] of the loop of [isVectorInPolygon]: whether
    the ray from the point crosses the edge. *)
Definition edgeIntersects (point : VectorLike) (edge : VectorLike * VectorLike) : bool :=
  if negb (eqb (edge.1.2 >? point.2)%js (edge.2.2 >? point.2)%js)
  then (point.1 <? (edge.2.1 - edge.1.1) * (point.2 - edge.1.2)
                   / (edge.2.2 - edge.1.2) + edge.1.1)%js
  else false.

(** A string of [n] zeros, the padding of a short crop value. *)
Fixpoint zeros (n : nat) : string :=
  match n with
  | O => EmptyString
  | S n' => String "0" (zeros n')
  end.

(** The order of [Array.prototype.sort()] on strings. *)
Definition keyLe (key1 key2 : string) : Prop := String.leb key1 key2 = true.

(** An object all of whose keys are plain property names: no key is an
    array index (which an object enumerates first, in numeric order). *)
Definition plainKeys {V : Type} (obj : list (string * V)) : Prop :=
  NoDup (Object_keys obj) ∧ Forall (λ key, arrayIndex key = None) (Object_keys obj).

(** The properties of [obj] under the given keys, in the order of the keys. *)
Definition propertiesOf {V : Type} (obj : list (string * V)) (keys : list string)
    : list (string * V) :=
  omap (λ key, (λ value, (key, value)) <$> getProp obj key) keys.

(** *** Well-formed [picasa.ini] files

    A file that is a sequence of sections, each a header line with the
    name of a photo and the lines of its rules. *)
Definition sectionLines (section : string * list string) : list string :=
  ("[" +:+ section.1 +:+ "]") :: section.2.

Definition renderPicasaIni (sections : list (string * list string)) : list string :=
  sections ≫= sectionLines.

(** The name of a section is not empty and has no line terminator, and no
    line of its body reads as a header. *)
Definition wellFormedSection (section : string * list string) : Prop :=
  section.1 ≠ "" ∧
  allChars (λ c, negb (isLineTerminator c)) section.1 = true ∧
  Forall (λ line, sectionStartRegExp line = None) section.2.

(** The rules of the edited image of that name, if there are any. *)
Definition editedRulesOf (editedPicasaData : option PicasaData.t) (name : string)
    : list string :=
  default [] (edited ← editedPicasaData; PicasaData.photos edited !! name).

(** The sections recorded one after the other, a later section of the same
    name replacing the earlier one. *)
Definition recordSections (editedPicasaData : option PicasaData.t)
    (sections : list (string * list string)) : gmap string (list string) :=
  foldl (λ photos section,
           <[section.1 := section.2 ++ editedRulesOf editedPicasaData section.1]> photos)
        ∅ sections.


(** ** Line intersection on binary64 numbers

    [intersectPlainLines] as it runs: every JavaScript number is a binary64
    floating-point number and every operation rounds to the nearest one
    (ties to even), which is what the primitive [float] of the kernel
    does. *)
Module Double.
Import Floats.




Local Open Scope float_scope.



(** [intersectPlainLines]: the two elements it writes to [outFactors]. *)
Definition intersectPlainLines
    (startX1 startY1 endX1 endY1 startX2 startY2 endX2 endY2 : float) : float * float :=
  let vX1 := endX1 - startX1 in
  let vY1 := endY1 - startY1 in
  let vX2 := endX2 - startX2 in
  let vY2 := endY2 - startY2 in
  let f := vX2 * vY1 - vX1 * vY2 in
  if f =? 0 then (nan, nan)
  else
    let vX3 := startX2 - startX1 in
    let vY3 := startY2 - startY1 in
    ((vX2 * vY3 - vX3 * vY2) / f, (vX1 * vY3 - vX3 * vY1) / f).
End Double.

(** * Properties *)

(** ** Numbers *)

Lemma Math_min_comm (a b : number) : Math_min a b = Math_min b a.
Proof.
  destruct a as [|p], b as [|q]; simpl; try reflexivity.
  f_equal. repeat case_decide; try reflexivity.
  - by apply Qcle_antisym.
  - exfalso. destruct (Qc_le_total p q); auto.
Qed.

Lemma Math_abs_sub_comm (a b : number) :
  Math_abs (a - b)%js = Math_abs (b - a)%js.
Proof.
  destruct a as [|p], b as [|q]; simpl; try reflexivity.
  f_equal. repeat case_decide.
  - assert (p = q) as ->; [|ring].
    apply Qcle_antisym; apply Qcle_minus_iff.
    + by replace (q + - p) with (q - p) by ring.
    + by replace (p + - q) with (p - q) by ring.
  - ring.
  - ring.
  - exfalso. destruct (Qc_le_total 0 (p - q)) as [|H1]; [done|].
    apply Qcopp_le_compat in H1.
    replace (- (p - q)) with (q - p) in H1 by ring.
    replace (- 0) with 0 in H1 by ring. done.
Qed.

Lemma Math_abs_nonneg (p : Qc) : ∃ w, Math_abs (Num p) = Num w ∧ 0 ≤ w.
Proof.
  simpl. case_decide as H.
  - eauto.
  - exists (- p). split; [done|].
    destruct (Qc_le_total 0 p) as [|H1]; [done|].
    apply Qcopp_le_compat in H1. by replace (- 0) with 0 in H1 by ring.
Qed.

(** ** Geometry *)

(** C8: [getRectFromPoints] does not depend on the order of its two points;
    for points with numeric coordinates its width and height are numbers
    that are not negative; and [getRectFromPoints((5,5),(1,1))] and
    [getRectFromPoints((1,1),(5,5))] are both [{x:1, y:1, width:4, height:4}]. *)
Theorem getRectFromPoints_order_independent :
  (∀ p1 p2 : Point.t, getRectFromPoints p1 p2 = getRectFromPoints p2 p1) ∧
  (∀ x1 y1 x2 y2 : Qc, ∃ w h : Qc,
      Rect.width (getRectFromPoints (pt x1 y1) (pt x2 y2)) = Num w ∧
      Rect.height (getRectFromPoints (pt x1 y1) (pt x2 y2)) = Num h ∧
      0 ≤ w ∧ 0 ≤ h ∧
      (Rect.width (getRectFromPoints (pt x1 y1) (pt x2 y2)) >=? ofZ 0)%js = true ∧
      (Rect.height (getRectFromPoints (pt x1 y1) (pt x2 y2)) >=? ofZ 0)%js = true) ∧
  getRectFromPoints (Point.mk (ofZ 5) (ofZ 5)) (Point.mk (ofZ 1) (ofZ 1))
    = Rect.mk (ofZ 1) (ofZ 1) (ofZ 4) (ofZ 4) ∧
  getRectFromPoints (Point.mk (ofZ 1) (ofZ 1)) (Point.mk (ofZ 5) (ofZ 5))
    = Rect.mk (ofZ 1) (ofZ 1) (ofZ 4) (ofZ 4).
Proof.
  split; [|split; [|split]].
  - intros [a b] [c d]. unfold getRectFromPoints; simpl.
    f_equal; auto using Math_min_comm, Math_abs_sub_comm.
  - intros x1 y1 x2 y2.
    cbn [getRectFromPoints pt Rect.width Rect.height Point.x Point.y nsub].
    destruct (Math_abs_nonneg (x1 - x2)) as (w & -> & Hw).
    destruct (Math_abs_nonneg (y1 - y2)) as (h & -> & Hh).
    exists w, h. repeat split; try done.
    + unfold nge, nle, ofZ. apply bool_decide_eq_true. exact Hw.
    + unfold nge, nle, ofZ. apply bool_decide_eq_true. exact Hh.
  - by_compute.
  - by_compute.
Qed.

Lemma intersectPlainLines_num (sx1 sy1 ex1 ey1 sx2 sy2 ex2 ey2 : Qc) :
  let f := determinant sx1 sy1 ex1 ey1 sx2 sy2 ex2 ey2 in
  intersectPlainLines (Num sx1) (Num sy1) (Num ex1) (Num ey1)
                      (Num sx2) (Num sy2) (Num ex2) (Num ey2)
  = if decide (f = 0) then (NaN, NaN)
    else (Num (((ex2 - sx2) * (sy2 - sy1) - (sx2 - sx1) * (ey2 - sy2)) / f),
          Num (((ex1 - sx1) * (sy2 - sy1) - (sx2 - sx1) * (ey1 - sy1)) / f)).
Proof.
  intros f. unfold intersectPlainLines. cbn [nsub nmul neq ofZ].
  change (Q2Qc (inject_Z 0)) with 0.
  fold (determinant sx1 sy1 ex1 ey1 sx2 sy2 ex2 ey2). fold f.
  unfold bool_decide. destruct (decide_rel eq f 0) as [H|H].
  - by rewrite decide_True.
  - rewrite decide_False by done. cbn [ndiv]. by rewrite !decide_False by done.
Qed.

(** *** The determinant test on binary64 numbers *)

Section DoubleIntersection.
Import Floats.
Local Open Scope float_scope.
#[local] Set Warnings "-inexact-float".






End DoubleIntersection.

(** *** The cut point of a line and a polygon *)

Lemma cutStep_betterFactor ls le best edge :
  cutStep ls le best edge
  = let out := intersectVectorLines edge.1 edge.2 ls le in
    if cutsSegment out then betterFactor best out.2 else best.
Proof. destruct edge as [s e]. unfold cutStep, cutsSegment. simpl. by destruct best. Qed.

Lemma cutFactor_crossings ls le edges best :
  foldl (cutStep ls le) best edges
  = foldl betterFactor best
      (snd <$> filter (λ out, cutsSegment out = true)
         ((λ edge, intersectVectorLines edge.1 edge.2 ls le) <$> edges)).
Proof.
  revert best. induction edges as [|edge edges IH]; intros best; [done|].
  cbn [foldl fmap list_fmap]. rewrite filter_cons, cutStep_betterFactor. cbn zeta.
  destruct (cutsSegment (intersectVectorLines edge.1 edge.2 ls le)) eqn:Hcut.
  - rewrite decide_True by done. cbn [fmap list_fmap foldl]. apply IH.
  - rewrite decide_False by done. apply IH.
Qed.











(** The example of the specification: from [(1/2, 1/2)] towards [(2, 1/2)]
    the line leaves the unit square at [(1, 1/2)]. *)
Example cutLineWithPolygon_unit_square :
  (cutLineWithPolygon (half, half) (ofZ 2, half) unitSquare).1 = Some (ofZ 1, half).
Proof. by_compute. Qed.

(** ** The legacy rule importer *)

(** *** Decoding a packed crop value *)

Lemma length_four (s : string) :
  String.length s = 4%nat →
  ∃ a b c d, s = String a (String b (String c (String d EmptyString))).
Proof.
  destruct s as [|a [|b [|c [|d [|e s]]]]]; try discriminate. eauto 6.
Qed.

(** C4, as the code has it: a packed crop value of sixteen digits is read
    as the four groups left, top, right, bottom of four hexadecimal digits;
    each group is divided by [0xffff] and multiplied by the master width
    (left, right) or the master height (top, bottom), and the rectangle
    between the two corners is the crop rectangle on the canvas. *)
Theorem picasaCanvasRect_decodes_quad (st : ImportState)
    (left top right bottom : string) (masterWidth masterHeight : number) :
  String.length left = 4%nat → String.length top = 4%nat →
  String.length right = 4%nat → String.length bottom = 4%nat →
  picasaCropRect st = Some (left +:+ top +:+ right +:+ bottom) →
  picasaCanvasRect st masterWidth masterHeight
  = (rectFromPoints
       ((parseInt left 16 / ofZ 65535 * masterWidth)%js,
        (parseInt top 16 / ofZ 65535 * masterHeight)%js)
       ((parseInt right 16 / ofZ 65535 * masterWidth)%js,
        (parseInt bottom 16 / ofZ 65535 * masterHeight)%js),
     importProblems st).
Proof.
  intros (l1 & l2 & l3 & l4 & ->)%length_four (t1 & t2 & t3 & t4 & ->)%length_four
         (r1 & r2 & r3 & r4 & ->)%length_four (b1 & b2 & b3 & b4 & ->)%length_four Hcrop.
  unfold picasaCanvasRect. rewrite Hcrop. reflexivity.
Qed.

(** The example of the specification, as the code computes it: over a
    master of 1000 x 1000 the packed value [0000000080008000] gives a crop
    rectangle at the origin whose sides are [0x8000 / 0xffff * 1000], that is
    [32768000 / 65535], a little more than 500. *)
Lemma picasaCanvasRect_decodes_quad_example :
  picasaCanvasRect (importRules inertCollaborators ["crop=rect64(0000000080008000)"])
                   (ofZ 1000) (ofZ 1000)
  = (Rect.mk (ofZ 0) (ofZ 0) (Num (Q2Qc (32768000 # 65535))) (Num (Q2Qc (32768000 # 65535))),
     []).
Proof.
  rewrite (picasaCanvasRect_decodes_quad _ "0000" "0000" "8000" "8000");
    [by_compute|reflexivity..].
Defined.

(** C4, the example as worded fails: the sides of that rectangle are not
    500, because [0x8000 / 0xffff] is not one half. *)
Lemma picasaCanvasRect_example_not_500 :
  (picasaCanvasRect (importRules inertCollaborators ["crop=rect64(0000000080008000)"])
                    (ofZ 1000) (ofZ 1000)).1
  ≠ Rect.mk (ofZ 0) (ofZ 0) (ofZ 500) (ofZ 500).
Proof. by_compute. Qed.

(** *** Several crop values in one rule list *)

Lemma isDuplicateCropProblem_duplicate first later :
  isDuplicateCropProblem (duplicateCropProblem first later) = true.
Proof. apply bool_decide_eq_true. simpl. repeat rewrite decide_True by done. eauto. Qed.

Lemma cropView_values (st st' : ImportState) (values : list string) :
  picasaCropRect st' = cropRectAfter (picasaCropRect st) values →
  filter (λ p, isDuplicateCropProblem p = true) (importProblems st')
    = filter (λ p, isDuplicateCropProblem p = true) (importProblems st)
      ++ duplicatesAfter (picasaCropRect st) values →
  cropView st' = (cropRectAfter (cropView st).1 values,
                  (cropView st).2 ++ duplicatesAfter (cropView st).1 values).
Proof. intros H1 H2. unfold cropView. simpl. by rewrite H1, H2. Qed.

Lemma seeCropRect_view st value :
  cropView (seeCropRect st value)
  = (cropRectAfter (cropView st).1 [value],
     (cropView st).2 ++ duplicatesAfter (cropView st).1 [value]).
Proof.
  apply cropView_values; unfold seeCropRect; simpl;
    destruct (truthyString (picasaCropRect st)) eqn:Ht; simpl; try done.
  - by case_bool_decide.
  - case_bool_decide; simpl; rewrite ?app_nil_r; [|done].
    rewrite list.filter_app, filter_cons_True, filter_nil; [done|].
    apply isDuplicateCropProblem_duplicate.
  - by rewrite app_nil_r.
Qed.

Lemma cropRectAfter_app seen values1 values2 :
  cropRectAfter seen (values1 ++ values2)
  = cropRectAfter (cropRectAfter seen values1) values2.
Proof. revert seen. induction values1; intros; simpl; auto. Qed.

Lemma duplicatesAfter_app seen values1 values2 :
  duplicatesAfter seen (values1 ++ values2)
  = duplicatesAfter seen values1
    ++ duplicatesAfter (cropRectAfter seen values1) values2.
Proof.
  revert seen. induction values1 as [|v values1 IH]; intros; simpl; [done|].
  by rewrite IH, (assoc app).
Qed.

Lemma processFilter_view st filter :
  cropView (processFilter st filter)
  = (cropRectAfter (cropView st).1 (cropValuesOfFilter filter),
     (cropView st).2 ++ duplicatesAfter (cropView st).1 (cropValuesOfFilter filter)).
Proof.
  unfold processFilter, cropValuesOfFilter.
  destruct (tiltFilterRegExp filter) as [angle|].
  { unfold cropView; simpl. by rewrite app_nil_r. }
  destruct (cropFilterRegExp filter) as [hex|]; [apply seeCropRect_view|].
  case_bool_decide; unfold cropView; simpl; rewrite app_nil_r; [|done].
  rewrite list.filter_app, filter_cons_False, filter_nil, app_nil_r; [done|].
  unfold isDuplicateCropProblem. rewrite bool_decide_eq_true. simpl.
  by intros [? ?].
Qed.

Lemma processFilters_view st filters :
  cropView (foldl processFilter st filters)
  = (cropRectAfter (cropView st).1 (filters ≫= cropValuesOfFilter),
     (cropView st).2 ++ duplicatesAfter (cropView st).1 (filters ≫= cropValuesOfFilter)).
Proof.
  revert st. induction filters as [|f filters IH]; intros st.
  - cbn [foldl mbind list_bind cropRectAfter duplicatesAfter].
    rewrite app_nil_r. by destruct (cropView st).
  - cbn [foldl mbind list_bind]. rewrite IH, processFilter_view. cbn [fst snd].
    by rewrite cropRectAfter_app, duplicatesAfter_app, (assoc app).
Qed.

Section ImporterProperties.
Context (E : Collaborators).

Lemma processRule_view st rule :
  cropView (processRule E st rule)
  = (cropRectAfter (cropView st).1 (cropValuesOfRule rule),
     (cropView st).2 ++ duplicatesAfter (cropView st).1 (cropValuesOfRule rule)).
Proof.
  unfold processRule, cropValuesOfRule.
  destruct (rotateRuleRegExp rule) as [digits|].
  { unfold cropView; simpl. by rewrite app_nil_r. }
  case_bool_decide.
  { unfold cropView; simpl. by rewrite app_nil_r. }
  destruct (filtersRuleRegExp rule) as [filters|]; [apply processFilters_view|].
  destruct (cropRuleRegExp rule) as [hex|]; [apply seeCropRect_view|].
  destruct (ignoredRulesRegExp rule); unfold cropView; simpl; rewrite app_nil_r; [done|].
  rewrite list.filter_app, filter_cons_False, filter_nil, app_nil_r; [done|].
  unfold isDuplicateCropProblem. rewrite bool_decide_eq_true. simpl.
  by intros [? ?].
Qed.

Lemma processRules_view st rules :
  cropView (foldl (processRule E) st rules)
  = (cropRectAfter (cropView st).1 (cropValues rules),
     (cropView st).2 ++ duplicatesAfter (cropView st).1 (cropValues rules)).
Proof.
  revert st. induction rules as [|rule rules IH]; intros st.
  - unfold cropValues. cbn [foldl mbind list_bind cropRectAfter duplicatesAfter].
    rewrite app_nil_r. by destruct (cropView st).
  - unfold cropValues in *. cbn [foldl mbind list_bind].
    rewrite IH, processRule_view. cbn [fst snd].
    by rewrite cropRectAfter_app, duplicatesAfter_app, (assoc app).
Qed.
End ImporterProperties.











Section ImporterNonInterference.
Context (E : Collaborators).



End ImporterNonInterference.


(** The example of the specification: an unknown rule gives exactly one
    anomaly and the rules after it are translated. *)
Example unknown_rule_one_anomaly :
  createPhotoWorkFromPicasaRules inertCollaborators ["foo=bar"; "star=yes"]
    "/photos" "a.jpg" (ofZ 1000) (ofZ 1000)
  = ([("flagged", VBoolean true)],
     Some ("Picasa import is incomplete for /photos/a.jpg:"
           +:+ String (ascii_of_nat 10) "  - Unknown rule: foo=bar")).
Proof. reflexivity. Qed.

(** ** Plain objects *)

Section ObjProperties.
Context {V : Type}.
Implicit Types (obj : list (string * V)) (key : string) (value : V).

Lemma getProp_None obj key : getProp obj key = None ↔ key ∉ Object_keys obj.
Proof.
  unfold Object_keys. induction obj as [|[k v] obj IH]; simpl.
  - split; [intros _; apply not_elem_of_nil|done].
  - case_decide as Hk; rewrite not_elem_of_cons.
    + split; [done|]. intros [Hne _]. by destruct Hne.
    + rewrite IH. intuition congruence.
Qed.

Lemma getProp_is_Some obj key : is_Some (getProp obj key) ↔ key ∈ Object_keys obj.
Proof.
  rewrite <- not_eq_None_Some, getProp_None.
  split; [apply dec_stable|by intros ? ?].
Qed.

Lemma getProp_replaceProp obj key value key' :
  is_Some (getProp obj key) →
  getProp (replaceProp obj key value) key'
  = if decide (key = key') then Some value else getProp obj key'.
Proof.
  induction obj as [|[k v] obj IH]; simpl; [by intros [? ?]|].
  intros Hsome. destruct (decide (k = key)) as [->|Hk]; simpl.
  - by destruct (decide (key = key')).
  - rewrite IH by done.
    destruct (decide (k = key')) as [->|]; [|done]. by rewrite decide_False.
Qed.

Lemma getProp_insertIndexProp obj index key value key' :
  getProp obj key = None →
  getProp (insertIndexProp obj index key value) key'
  = if decide (key = key') then Some value else getProp obj key'.
Proof.
  induction obj as [|[k v] obj IH]; simpl; [done|].
  destruct (decide (k = key)) as [->|Hk]; [done|]. intros Hnone.
  assert (Hhead : getProp ((key, value) :: (k, v) :: obj) key'
                  = if decide (key = key') then Some value
                    else if decide (k = key') then Some v else getProp obj key')
    by done.
  destruct (arrayIndex k) as [i|]; [|done].
  destruct (i <? index)%Z; [|done]. simpl. rewrite IH by done.
  destruct (decide (k = key')) as [->|]; [|done]. by rewrite decide_False.
Qed.

Lemma getProp_app obj1 obj2 key :
  getProp (obj1 ++ obj2) key
  = match getProp obj1 key with Some v => Some v | None => getProp obj2 key end.
Proof.
  induction obj1 as [|[k v] obj1 IH]; simpl; [done|]. by case_decide.
Qed.

(** Reading a property after an assignment. *)
Lemma getProp_setProp obj key value key' :
  getProp (setProp obj key value) key'
  = if decide (key = key') then Some value else getProp obj key'.
Proof.
  unfold setProp. destruct (getProp obj key) as [v|] eqn:Hget.
  - apply getProp_replaceProp. by rewrite Hget.
  - destruct (arrayIndex key); [by apply getProp_insertIndexProp|].
    rewrite getProp_app. simpl.
    destruct (decide (key = key')) as [->|]; [by rewrite Hget|].
    by destruct (getProp obj key').
Qed.

Lemma getProp_deleteProp obj key key' :
  getProp (deleteProp obj key) key'
  = if decide (key = key') then None else getProp obj key'.
Proof.
  unfold deleteProp. induction obj as [|[k v] obj IH]; simpl.
  - by case_decide.
  - rewrite filter_cons. simpl. destruct (decide (k ≠ key)) as [Hk|Hk]; simpl.
    + rewrite IH. destruct (decide (k = key')) as [->|]; [|done].
      by rewrite decide_False.
    + apply dec_stable in Hk as ->. rewrite IH. by case_decide.
Qed.

Lemma elem_of_insertSorted key key' (sorted : list string) :
  key' ∈ insertSorted key sorted ↔ key' = key ∨ key' ∈ sorted.
Proof.
  induction sorted as [|k sorted IH]; simpl.
  - rewrite list_elem_of_singleton, elem_of_nil. intuition congruence.
  - destruct (String.leb key k); rewrite !elem_of_cons; [done|].
    rewrite IH. intuition congruence.
Qed.

Lemma elem_of_Array_sort key (keys : list string) :
  key ∈ Array_sort keys ↔ key ∈ keys.
Proof.
  unfold Array_sort. induction keys as [|k keys IH]; simpl; [done|].
  by rewrite elem_of_insertSorted, IH, elem_of_cons.
Qed.

Lemma getProp_canonical_fold obj (sortedObj : list (string * V)) (keys : list string) key :
  getProp
    (foldl (λ sortedObj key,
              match getProp obj key with
              | Some value => setProp sortedObj key value
              | None => sortedObj
              end) sortedObj keys) key
  = match (if decide (key ∈ keys) then getProp obj key else None) with
    | Some value => Some value
    | None => getProp sortedObj key
    end.
Proof.
  revert sortedObj. induction keys as [|k keys IH]; intros sortedObj.
  - cbn [foldl]. rewrite decide_False; [done|apply not_elem_of_nil].
  - cbn [foldl]. rewrite IH.
    destruct (decide (key ∈ keys)) as [Hin|Hin].
    + rewrite decide_True by (by right).
      destruct (getProp obj key) eqn:Hkey; [done|].
      destruct (getProp obj k) eqn:Hk; [|done].
      rewrite getProp_setProp. case_decide; [congruence|done].
    + destruct (decide (k = key)) as [->|Hne].
      * rewrite decide_True by (by left).
        destruct (getProp obj key) eqn:Hkey; [|done].
        rewrite getProp_setProp. by rewrite decide_True.
      * rewrite decide_False by (rewrite elem_of_cons; intuition congruence).
        destruct (getProp obj k); [|done].
        rewrite getProp_setProp. by rewrite decide_False.
Qed.

(** [toCanonical] keeps every property and its value. *)
Lemma getProp_toCanonical obj key : getProp (toCanonical obj) key = getProp obj key.
Proof.
  unfold toCanonical. rewrite getProp_canonical_fold. simpl.
  destruct (decide (key ∈ Array_sort (Object_keys obj))) as [Hin|Hin].
  - by destruct (getProp obj key).
  - rewrite elem_of_Array_sort in Hin. apply getProp_None in Hin. by rewrite Hin.
Qed.
End ObjProperties.

(** ** The directory work cache *)

Lemma storedPhotos_nonempty (photos : list (string * PhotoWork)) photoBasename
    (photoWork : PhotoWork) :
  photoWork ≠ [] →
  storedPhotos photos photoBasename photoWork
  = setProp photos photoBasename (toCanonical photoWork).
Proof.
  intros Hne. unfold storedPhotos. cbn zeta.
  rewrite bool_decide_eq_false_2 by (by destruct photoWork).
  rewrite getProp_setProp, decide_True by done.
  by rewrite bool_decide_eq_true_2 by eauto.
Qed.

Lemma storedPhotos_empty (photos : list (string * PhotoWork)) photoBasename :
  storedPhotos photos photoBasename [] = deleteProp photos photoBasename.
Proof. done. Qed.

(** C2, what the code does instead: a record that is not empty is put
    under its key with [isNew] computed after the assignment, so [isNew] is
    never true and the mapping is never sorted; a key that is new (and not
    an array index) goes to the end of the mapping.  After [b.jpg] and then
    [a.jpg] are stored in a directory without sidecars, the own mapping and
    the file the store cycle writes list [b.jpg] before [a.jpg]. *)
Theorem storePhotoWork_never_sorts :
  (∀ (photos : list (string * PhotoWork)) photoBasename (photoWork : PhotoWork),
      photoWork ≠ [] → getProp photos photoBasename = None →
      arrayIndex photoBasename = None →
      storedPhotos photos photoBasename photoWork
      = photos ++ [(photoBasename, toCanonical photoWork)]) ∧
  ∃ dw1 dw2 : DirectoryWork,
    storePhotoWork 0 noSidecars (newDirectoryWork "/photos") "b.jpg" flaggedWork = Some dw1 ∧
    storePhotoWork 1 noSidecars dw1 "a.jpg" flaggedWork = Some dw2 ∧
    Object_keys (ownPhotos dw2) = ["b.jpg"; "a.jpg"] ∧
    (storeCycle dw2 None).2
    = Some (DirectoryWorkData.mk [("b.jpg", flaggedWork); ("a.jpg", flaggedWork)]).
Proof.
  split.
  - intros photos photoBasename photoWork Hne Hnew Hindex.
    rewrite storedPhotos_nonempty by done. unfold setProp. by rewrite Hnew, Hindex.
  - eexists _, _. repeat split; reflexivity.
Qed.

Lemma storePhotoWork_Some now io dw photoBasename photoWork dw1 :
  storePhotoWork now io dw photoBasename photoWork = Some dw1 →
  ∃ fetchedData,
    (fetchData now io dw).1 = Some fetchedData ∧
    data dw1 = Some {| anselData :=
                         DirectoryWorkData.mk
                           (storedPhotos (DirectoryWorkData.photos (anselData fetchedData))
                              photoBasename photoWork);
                       picasaDataOf := picasaDataOf fetchedData |} ∧
    directoryPath dw1 = directoryPath dw ∧
    isStoreRunning dw1 || needsStoreFollowup dw1 = true.
Proof.
  unfold storePhotoWork. destruct (fetchData now io dw) as [[d|] dw'] eqn:Hfetch; [|done].
  intros [= <-]. exists d. split; [done|].
  assert (Hpath : directoryPath dw' = directoryPath dw).
  { unfold fetchData, fetchSettled in Hfetch.
    destruct (fetchPlan now dw); [by injection Hfetch as _ <-|..];
      destruct (fetched io); by injection Hfetch as _ <-. }
  unfold onDataChanged; simpl. by destruct (isStoreRunning dw') eqn:Hrun.
Qed.

Lemma fetchData_while_storing now io dw cached :
  data dw = Some cached →
  isStoreRunning dw || needsStoreFollowup dw = true →
  fetchData now io dw = (Some cached, dw).
Proof.
  intros Hdata Hstore. unfold fetchData, fetchPlan. rewrite Hdata, Hstore. done.
Qed.

Lemma fetchData_Some now io dw snapshot dw' :
  fetchData now io dw = (Some snapshot, dw') →
  data dw' = Some snapshot ∧ directoryPath dw' = directoryPath dw ∧
  (∀ cached, fetchPlan now dw = UseCached cached → dw' = dw ∧ snapshot = cached).
Proof.
  unfold fetchData. destruct (fetchPlan now dw) as [cached| |] eqn:Hplan.
  - intros [= <- <-]. split; [|split; [done|]].
    + unfold fetchPlan in Hplan. destruct (data dw) as [d|]; [|by destruct (runningFetch dw)].
      destruct (_ || _); [congruence|by destruct (runningFetch dw)].
    + by intros ? [= <-].
  - unfold fetchSettled. intros [= Hio <-]. rewrite Hio. by repeat split.
  - unfold fetchSettled. intros [= Hio <-]. rewrite Hio. by repeat split.
Qed.

Section DirectoryWorkProperties.
Context (E : Collaborators).

(** C5: once [fetchData] has given its snapshot, [fetchPhotoWork] returns
    the own edit record of the photo when the own mapping has one;
    otherwise the importer's translation of the legacy rules when the
    legacy data has rules under that name; otherwise an empty record.
    The cache afterwards is the one [fetchData] left, with the snapshot
    that was read as its data: looking the record up changes nothing, and
    nothing at all changes when the cached snapshot was used. *)
Theorem fetchPhotoWork_own_then_legacy_then_empty (now : Z) (io : FetchIO)
    (dw : DirectoryWork) (photoBasename : string) (masterWidth masterHeight : number)
    (snapshot : DirectoryData) (dw' : DirectoryWork) :
  fetchData now io dw = (Some snapshot, dw') →
  let own := DirectoryWorkData.photos (anselData snapshot) in
  let legacy :=
    picasaData ← picasaDataOf snapshot; PicasaData.photos picasaData !! photoBasename in
  ∃ result : PhotoWork * option string,
    fetchPhotoWork E now io dw photoBasename masterWidth masterHeight
      = (Some result, dw') ∧
    data dw' = Some snapshot ∧
    (∀ cached, fetchPlan now dw = UseCached cached → dw' = dw ∧ snapshot = cached) ∧
    (∀ photoWork, getProp own photoBasename = Some photoWork →
       result = (photoWork, None)) ∧
    (∀ picasaRules, getProp own photoBasename = None → legacy = Some picasaRules →
       result = createPhotoWorkFromPicasaRules E picasaRules (directoryPath dw)
                  photoBasename masterWidth masterHeight) ∧
    (getProp own photoBasename = None → legacy = None → result = ([], None)).
Proof.
  intros Hfetch own legacy.
  destruct (fetchData_Some _ _ _ _ _ Hfetch) as (Hdata & Hpath & Hcached).
  eexists. split; [|split; [done|split; [done|]]].
  - unfold fetchPhotoWork. rewrite Hfetch. reflexivity.
  - unfold photoWorkOf. fold own. rewrite Hpath. subst legacy.
    destruct (getProp own photoBasename) as [photoWork|].
    + split; [by intros ? [= ->]|]. by split.
    + split; [done|].
      destruct (picasaDataOf snapshot) as [picasaData|]; simpl.
      * destruct (PicasaData.photos picasaData !! photoBasename); split; by intros; simplify_eq.
      * by split.
Qed.

(** C3: after [storePhotoWork] of a record that is not empty,
    [fetchPhotoWork] for the same photo returns a record with the same
    attributes and values, and logs nothing; after [storePhotoWork] of an
    empty record it returns an empty record when the legacy data has no
    rules under that name (the proviso of the claim); and the store cycle
    removes [ansel.json] when the own mapping is empty.  Outside the
    proviso, when the legacy data has rules under that name, the fetch
    after an empty record returns the importer's translation of them. *)
Theorem store_then_fetch_round_trip (now : Z) (io : FetchIO) (dw : DirectoryWork)
    (photoBasename : string) (photoWork : PhotoWork) (now' : Z) (io' : FetchIO)
    (masterWidth masterHeight : number) (dw1 : DirectoryWork) :
  storePhotoWork now io dw photoBasename photoWork = Some dw1 →
  (photoWork ≠ [] →
     ∃ fetchedWork,
       fetchPhotoWork E now' io' dw1 photoBasename masterWidth masterHeight
         = (Some (fetchedWork, None), dw1) ∧
       equivalentRecords fetchedWork photoWork) ∧
  (photoWork = [] → legacyRules dw1 photoBasename = None →
     fetchPhotoWork E now' io' dw1 photoBasename masterWidth masterHeight
       = (Some ([], None), dw1)) ∧
  (photoWork = [] → ∀ picasaRules, legacyRules dw1 photoBasename = Some picasaRules →
     fetchPhotoWork E now' io' dw1 photoBasename masterWidth masterHeight
       = (Some (createPhotoWorkFromPicasaRules E picasaRules (directoryPath dw1)
                  photoBasename masterWidth masterHeight), dw1)) ∧
  (∀ sidecar, ownPhotos dw1 = [] → (storeCycle dw1 sidecar).2 = None).
Proof.
  intros (fetchedData & _ & Hdata & _ & Hstoring)%storePhotoWork_Some.
  unfold fetchPhotoWork, legacyRules.
  rewrite (fetchData_while_storing _ _ _ _ Hdata Hstoring), Hdata.
  unfold photoWorkOf. cbn [fmap option_fmap option_map anselData picasaDataOf
                           DirectoryWorkData.photos mbind option_bind].
  split; [|split; [|split]].
  - intros Hne. rewrite storedPhotos_nonempty, getProp_setProp, decide_True by done.
    eexists. split; [done|]. intros key. apply getProp_toCanonical.
  - intros -> Hlegacy. rewrite storedPhotos_empty, getProp_deleteProp, decide_True by done.
    destruct (picasaDataOf fetchedData) as [picasaData|]; [|done].
    simpl in Hlegacy. by rewrite Hlegacy.
  - intros -> picasaRules Hlegacy.
    rewrite storedPhotos_empty, getProp_deleteProp, decide_True by done.
    destruct (picasaDataOf fetchedData) as [picasaData|]; [|done].
    simpl in Hlegacy. by rewrite Hlegacy.
  - intros sidecar Hown. unfold storeCycle, ownPhotos in *. cbn [data] in *.
    rewrite Hdata in *. cbn [fmap option_fmap option_map anselData] in *.
    rewrite Hown. done.
Qed.
(** The round trip also goes through the file: once the store cycle has
written [ansel.json], a fetch that reads it back (or still uses the cached
snapshot) finds an equivalent record. *)
Lemma store_cycle_then_fetch (now : Z) (io : FetchIO) (dw : DirectoryWork)
    (photoBasename : string) (photoWork : PhotoWork) (dw1 : DirectoryWork)
    (sidecar : option DirectoryWorkData.t) (now' : Z) (io' : FetchIO)
    (masterWidth masterHeight : number) :
  storePhotoWork now io dw photoBasename photoWork = Some dw1 →
  photoWork ≠ [] →
  anselJson io' = Some (fetchAnselJson (storeCycle dw1 sidecar).2) →
  is_Some (picasaIni io') →
  ∃ fetchedWork dw2,
    fetchPhotoWork E now' io' (storeCycleDone (storeCycle dw1 sidecar).1)
      photoBasename masterWidth masterHeight
      = (Some (fetchedWork, None), dw2) ∧
    equivalentRecords fetchedWork photoWork.
Proof.
  intros (fetchedData & _ & Hdata & _ & _)%storePhotoWork_Some Hne Hansel [legacy Hlegacy].
  set (photos := storedPhotos (DirectoryWorkData.photos (anselData fetchedData))
                   photoBasename photoWork) in *.
  assert (Hget : getProp photos photoBasename = Some (toCanonical photoWork)).
  { unfold photos. by rewrite storedPhotos_nonempty, getProp_setProp, decide_True. }
  assert (Hcycle : storeCycle dw1 sidecar
                   = ({| directoryPath := directoryPath dw1; data := data dw1;
                         lastFetchTime := lastFetchTime dw1;
                         runningFetch := runningFetch dw1;
                         isStoreRunning := isStoreRunning dw1;
                         needsStoreFollowup := false |},
                      Some (DirectoryWorkData.mk photos))).
  { unfold storeCycle. cbn [data]. rewrite Hdata.
    cbn [fmap option_fmap option_map anselData DirectoryWorkData.photos].
    rewrite bool_decide_eq_false_2; [done|].
    destruct photos; [done|discriminate]. }
  rewrite Hcycle in *. cbn [fst snd fetchAnselJson] in *.
  unfold fetchPhotoWork, fetchData, storeCycleDone.
  cbn [needsStoreFollowup directoryPath data lastFetchTime runningFetch isStoreRunning].
  destruct (fetchPlan now' _) as [cached| |] eqn:Hplan.
  - unfold fetchPlan in Hplan. cbn [data] in Hplan. rewrite Hdata in Hplan.
    destruct (_ || _) in Hplan; [|by destruct (runningFetch dw1)].
    injection Hplan as <-. eexists _, _. split.
    + cbn [fmap option_fmap option_map]. unfold photoWorkOf.
      cbn [anselData DirectoryWorkData.photos]. by rewrite Hget.
    + intros key. apply getProp_toCanonical.
  - unfold fetched. rewrite Hansel, Hlegacy. cbn [mbind option_bind].
    eexists _, _. split.
    + cbn [fmap option_fmap option_map]. unfold photoWorkOf.
      cbn [anselData DirectoryWorkData.photos]. by rewrite Hget.
    + intros key. apply getProp_toCanonical.
  - unfold fetched. rewrite Hansel, Hlegacy. cbn [mbind option_bind].
    eexists _, _. split.
    + cbn [fmap option_fmap option_map]. unfold photoWorkOf.
      cbn [anselData DirectoryWorkData.photos]. by rewrite Hget.
    + intros key. apply getProp_toCanonical.
Qed.
End DirectoryWorkProperties.

(** An instance of C5: in a cache that holds both an own record and legacy
    rules for [a.jpg], [fetchPhotoWork] returns the own record. *)
Lemma fetchPhotoWork_own_then_legacy_then_empty_witness :
  ∃ result,
    fetchPhotoWork inertCollaborators 0 noSidecars cacheWithLegacyRules "a.jpg"
      (ofZ 1000) (ofZ 1000) = (Some result, cacheWithLegacyRules) ∧
    result = (flaggedWork, None).
Proof.
  destruct (fetchPhotoWork_own_then_legacy_then_empty inertCollaborators 0 noSidecars
              cacheWithLegacyRules "a.jpg" (ofZ 1000) (ofZ 1000) _ _ eq_refl)
    as (result & Hfetch & _ & _ & Hown & _).
  exists result. split; [exact Hfetch|]. by apply Hown.
Defined.

(** An instance of C3: [{ flagged: true }] stored for [a.jpg] in a
    directory without sidecars, and fetched again. *)
Lemma store_then_fetch_round_trip_witness :
  ∃ dw1 fetchedWork,
    storePhotoWork 0 noSidecars (newDirectoryWork "/photos") "a.jpg" flaggedWork = Some dw1 ∧
    fetchPhotoWork inertCollaborators 1 noSidecars dw1 "a.jpg" (ofZ 1000) (ofZ 1000)
      = (Some (fetchedWork, None), dw1) ∧
    equivalentRecords fetchedWork flaggedWork.
Proof.
  eexists.
  destruct (store_then_fetch_round_trip inertCollaborators 0 noSidecars
              (newDirectoryWork "/photos") "a.jpg" flaggedWork 1 noSidecars
              (ofZ 1000) (ofZ 1000) _ eq_refl) as (Hfetch & _).
  destruct Hfetch as (fetchedWork & Hfetch & Hequiv); [done|].
  exists fetchedWork. split; [reflexivity|]. split; [exact Hfetch|exact Hequiv].
Defined.

(** ** The registry of directories *)

Lemma evictIfIdle_lookup registry path p :
  directoryWorkByPath (evictIfIdle registry path) !! p
  = match directoryWorkByPath registry !! p with
    | Some directoryWork =>
        if decide (p = path) then
          if isIdle directoryWork then None else Some directoryWork
        else Some directoryWork
    | None => None
    end.
Proof.
  unfold evictIfIdle.
  destruct (directoryWorkByPath registry !! path) as [cached|] eqn:Hpath.
  - destruct (isIdle cached) eqn:Hidle; simpl.
    + rewrite lookup_delete. destruct (decide (path = p)) as [->|Hne].
      * by rewrite Hpath, decide_True, Hidle.
      * destruct (directoryWorkByPath registry !! p); [|done].
        by rewrite decide_False.
    + destruct (directoryWorkByPath registry !! p) as [dw|] eqn:Hp; [|done].
      case_decide; [|done]. subst. rewrite Hpath in Hp. injection Hp as <-.
      by rewrite Hidle.
  - destruct (directoryWorkByPath registry !! p) as [dw|] eqn:Hp; [|done].
    case_decide; [|done]. subst. congruence.
Qed.

Lemma evictIfIdle_consistent registry path :
  registryConsistent registry → registryConsistent (evictIfIdle registry path).
Proof.
  unfold registryConsistent, evictIfIdle. intros Hsize.
  destruct (directoryWorkByPath registry !! path) as [cached|] eqn:Hpath; [|done].
  destruct (isIdle cached); [|done]. simpl.
  rewrite map_size_delete_Some by eauto.
  assert (size (directoryWorkByPath registry) ≠ 0%nat)
    by (apply (map_size_ne_0_lookup_2 _ path); eauto).
  lia.
Qed.

(** The sweep: of the paths swept, the idle instances go and the others
    stay, and the counter follows the mapping. *)
Lemma sweep_lookup (paths : list string) registry p :
  directoryWorkByPath (foldl evictIfIdle registry paths) !! p
  = match directoryWorkByPath registry !! p with
    | Some directoryWork =>
        if decide (p ∈ paths) then
          if isIdle directoryWork then None else Some directoryWork
        else Some directoryWork
    | None => None
    end.
Proof.
  revert registry. induction paths as [|path paths IH]; intros registry.
  - cbn [foldl]. destruct (directoryWorkByPath registry !! p); [|done].
    rewrite decide_False; [done|apply not_elem_of_nil].
  - cbn [foldl]. rewrite IH, evictIfIdle_lookup.
    destruct (directoryWorkByPath registry !! p) as [dw|]; [|done].
    destruct (decide (p = path)) as [->|Hne].
    + rewrite (decide_True (P := path ∈ path :: paths)) by (by left).
      destruct (isIdle dw) eqn:Hidle; [done|]. rewrite Hidle. by case_decide.
    + destruct (decide (p ∈ paths)) as [Hin|Hin].
      * by rewrite (decide_True (P := p ∈ path :: paths)) by (by right).
      * rewrite (decide_False (P := p ∈ path :: paths)); [done|].
        rewrite elem_of_cons. intuition congruence.
Qed.

Lemma sweep_consistent (paths : list string) registry :
  registryConsistent registry → registryConsistent (foldl evictIfIdle registry paths).
Proof.
  revert registry. induction paths as [|path paths IH]; intros registry Hsize; [done|].
  cbn [foldl]. by apply IH, evictIfIdle_consistent.
Qed.

Lemma sweep_all_lookup registry p :
  directoryWorkByPath
    (foldl evictIfIdle registry (map_to_list (directoryWorkByPath registry)).*1) !! p
  = match directoryWorkByPath registry !! p with
    | Some directoryWork => if isIdle directoryWork then None else Some directoryWork
    | None => None
    end.
Proof.
  rewrite sweep_lookup.
  destruct (directoryWorkByPath registry !! p) as [dw|] eqn:Hp; [|done].
  rewrite decide_True; [done|].
  apply list_elem_of_fmap. exists (p, dw). split; [done|].
  by apply elem_of_map_to_list.
Qed.

(** The registry after [getDirectoryWork] for a path it does not hold. *)
Lemma getDirectoryWork_miss path registry :
  directoryWorkByPath registry !! path = None →
  getDirectoryWork path registry
  = (newDirectoryWork path,
     let swept :=
       if (directoryWorkCacheSize registry >=? maxDirectoryWorkCacheSize)%Z
       then foldl evictIfIdle registry (map_to_list (directoryWorkByPath registry)).*1
       else registry in
     {| directoryWorkByPath := <[path := newDirectoryWork path]> (directoryWorkByPath swept);
        directoryWorkCacheSize := directoryWorkCacheSize swept + 1 |}).
Proof. intros Hmiss. unfold getDirectoryWork. by rewrite Hmiss. Qed.

Lemma getDirectoryWork_consistent path registry :
  registryConsistent registry → registryConsistent (getDirectoryWork path registry).2.
Proof.
  intros Hsize. unfold getDirectoryWork.
  destruct (directoryWorkByPath registry !! path) as [dw|] eqn:Hpath; [done|].
  cbn [snd].
  set (swept := if (directoryWorkCacheSize registry >=? maxDirectoryWorkCacheSize)%Z
                then foldl evictIfIdle registry (map_to_list (directoryWorkByPath registry)).*1
                else registry).
  assert (Hswept : registryConsistent swept)
    by (unfold swept; case_match; [by apply sweep_consistent|done]).
  assert (Hmiss : directoryWorkByPath swept !! path = None).
  { unfold swept. case_match; [|done]. by rewrite sweep_all_lookup, Hpath. }
  unfold registryConsistent in *. cbn [directoryWorkByPath directoryWorkCacheSize].
  rewrite map_size_insert_None by done. lia.
Qed.

Lemma isIdle_newDirectoryWork path : isIdle (newDirectoryWork path) = true.
Proof. done. Qed.





(** ** The section parser *)

Section SectionParserProperties.
Context (editedPicasaData : option PicasaData.t).

Lemma flushCurrentSection_parsedSoFar seen p :
  parsedSoFar seen p → parsedSoFar seen (flushCurrentSection editedPicasaData p).
Proof.
  intros Hp. pose proof Hp as [Hphotos Hkey]. unfold flushCurrentSection.
  destruct (currentSectionKey p) as [key|] eqn:Hcurrent; [|exact Hp].
  unfold truthyString. case_bool_decide as Hne; [|exact Hp].
  split; [|done]. intros name. cbn [picasaData PicasaData.photos].
  rewrite lookup_insert_is_Some. intros [<-|[_ Hname]]; [|by apply Hphotos].
  split; [by apply Hkey|done].
Qed.

Lemma onLine_parsedSoFar seen p line :
  parsedSoFar seen p →
  parsedSoFar (seen ++ sectionNames [line]) (onLine editedPicasaData p line).
Proof.
  intros Hp. unfold onLine, sectionNames. cbn [omap list_omap].
  destruct (sectionStartRegExp line) as [name|].
  - apply flushCurrentSection_parsedSoFar in Hp as [Hphotos _]. split; simpl.
    + intros n Hn. destruct (Hphotos n Hn). split; [|done].
      apply elem_of_app. by left.
    + intros n [= <-]. apply elem_of_app. right. by left.
  - rewrite app_nil_r. destruct Hp as [Hphotos Hkey]. by split.
Qed.

Lemma parser_parsedSoFar (lines : list string) seen p :
  parsedSoFar seen p →
  parsedSoFar (seen ++ sectionNames lines) (foldl (onLine editedPicasaData) p lines).
Proof.
  revert seen p. induction lines as [|line lines IH]; intros seen p Hp.
  - by rewrite app_nil_r.
  - cbn [foldl]. apply (onLine_parsedSoFar _ _ line), IH in Hp.
    replace (seen ++ sectionNames (line :: lines))
      with ((seen ++ sectionNames [line]) ++ sectionNames lines); [done|].
    rewrite <- (assoc app). f_equal. unfold sectionNames. cbn [omap list_omap].
    by destruct (sectionStartRegExp line).
Qed.

(** The part of C10 that holds: the sections of the result are named by
    headers of the file, and none has the empty name. *)
Lemma parsePicasaIni_sections (lines : list string) (name : string) :
  is_Some (PicasaData.photos (parsePicasaIni editedPicasaData lines) !! name) →
  name ∈ sectionNames lines ∧ name ≠ "".
Proof.
  unfold parsePicasaIni. intros Hname.
  assert (Hp : parsedSoFar ([] ++ sectionNames lines)
                 (flushCurrentSection editedPicasaData
                    (foldl (onLine editedPicasaData)
                       {| picasaData := PicasaData.mk ∅; currentSectionKey := None;
                          currentSectionRules := [] |} lines))).
  { apply flushCurrentSection_parsedSoFar, parser_parsedSoFar. split; [|done].
    intros n. cbn [picasaData PicasaData.photos]. rewrite lookup_empty. by intros [? ?]. }
  destruct Hp as [Hphotos _]. by apply Hphotos.
Qed.
End SectionParserProperties.

(** C10, what the code does instead: the lines before the first header, and
    the lines of a section with the empty name, are not dropped.
    [flushCurrentSection] empties [currentSectionRules] only when it records a
    section, so these lines are still there when the next section is
    recorded and become its first rules. *)
Theorem parsePicasaIni_orphan_lines_leak :
  parsePicasaIni None ["star=yes"; "[a.jpg]"; "rotate=rotate(90)"]
    = PicasaData.mk {["a.jpg" := ["star=yes"; "rotate=rotate(90)"]]} ∧
  parsePicasaIni None ["[]"; "star=yes"; "[a.jpg]"; "rotate=rotate(90)"]
    = PicasaData.mk {["a.jpg" := ["star=yes"; "rotate=rotate(90)"]]} ∧
  parsePicasaIni None ["[a.jpg]"; "rotate=rotate(90)"]
    = PicasaData.mk {["a.jpg" := ["rotate=rotate(90)"]]}.
Proof. split; [|split]; vm_compute; reflexivity. Qed.

(** * Further properties of the code *)

(** ** Corners and rectangles *)

(** X1: the three corner tables agree with each other and with the corner
    points of a rectangle: each table is an involution without a fixed
    point, the opposite corner is the horizontally adjacent corner of the
    vertically adjacent one (in either order), a horizontally adjacent
    corner has the same [y] and a vertically adjacent corner the same [x]. *)
Theorem corner_tables_agree (r : Rect.t) (corner : Corner) :
  oppositeCorner (oppositeCorner corner) = corner ∧
  horizontalAdjacentCorner (horizontalAdjacentCorner corner) = corner ∧
  verticalAdjacentCorner (verticalAdjacentCorner corner) = corner ∧
  oppositeCorner corner ≠ corner ∧
  horizontalAdjacentCorner corner ≠ corner ∧
  verticalAdjacentCorner corner ≠ corner ∧
  horizontalAdjacentCorner corner ≠ verticalAdjacentCorner corner ∧
  oppositeCorner corner = horizontalAdjacentCorner (verticalAdjacentCorner corner) ∧
  oppositeCorner corner = verticalAdjacentCorner (horizontalAdjacentCorner corner) ∧
  Point.y (getCornerPointOfRect r (horizontalAdjacentCorner corner))
    = Point.y (getCornerPointOfRect r corner) ∧
  Point.x (getCornerPointOfRect r (verticalAdjacentCorner corner))
    = Point.x (getCornerPointOfRect r corner) ∧
  getCornerVectorOfRect r corner = vectorFromPoint (getCornerPointOfRect r corner).
Proof. destruct corner; repeat split; done. Qed.

Lemma Math_min_le (p q : Qc) : p ≤ q → Math_min (Num p) (Num q) = Num p.
Proof. intros H. simpl. by rewrite decide_True. Qed.

Lemma Math_min_ge (p q : Qc) : q ≤ p → Math_min (Num p) (Num q) = Num q.
Proof.
  intros H. simpl. case_decide; [|done]. f_equal. by apply Qcle_antisym.
Qed.

Lemma Math_abs_of_nonneg (p : Qc) : 0 ≤ p → Math_abs (Num p) = Num p.
Proof. intros H. simpl. by rewrite decide_True. Qed.

Lemma Math_abs_of_nonpos (p : Qc) : p ≤ 0 → Math_abs (Num p) = Num (- p).
Proof.
  intros H. simpl. case_decide as H0; [|done]. f_equal.
  assert (p = 0) as -> by (by apply Qcle_antisym). ring.
Qed.

Lemma Qcle_add_nonneg (x w : Qc) : 0 ≤ w → x ≤ x + w.
Proof.
  intros H. rewrite <- (Qcplus_0_r x) at 1. by apply Qcplus_le_mono_l.
Qed.

Lemma Qcopp_nonneg (w : Qc) : 0 ≤ w → - w ≤ 0.
Proof. intros H. apply Qcopp_le_compat in H. by replace (- 0) with 0 in H by ring. Qed.

(** ** Intersections *)

(** An operand that is [NaN] makes both factors [NaN]. *)
Lemma intersectPlainLines_all_num a b c d e f g h q :
  (intersectPlainLines a b c d e f g h).1 = Num q ∨
  (intersectPlainLines a b c d e f g h).2 = Num q →
  ∃ a' b' c' d' e' f' g' h' : Qc,
    a = Num a' ∧ b = Num b' ∧ c = Num c' ∧ d = Num d' ∧
    e = Num e' ∧ f = Num f' ∧ g = Num g' ∧ h = Num h'.
Proof.
  destruct a as [|a'], b as [|b'], c as [|c'], d as [|d'],
           e as [|e'], f as [|f'], g as [|g'], h as [|h'];
    try (intros [H|H]; discriminate H).
  intros _. by exists a', b', c', d', e', f', g', h'.
Qed.

(** X4: exchanging the two lines exchanges the two factors, whatever the
    operands are. *)
Theorem intersectPlainLines_exchange
    (startX1 startY1 endX1 endY1 startX2 startY2 endX2 endY2 : number) :
  intersectPlainLines startX2 startY2 endX2 endY2 startX1 startY1 endX1 endY1
  = ((intersectPlainLines startX1 startY1 endX1 endY1 startX2 startY2 endX2 endY2).2,
     (intersectPlainLines startX1 startY1 endX1 endY1 startX2 startY2 endX2 endY2).1).
Proof.
  destruct startX1 as [|sx1], startY1 as [|sy1], endX1 as [|ex1], endY1 as [|ey1],
           startX2 as [|sx2], startY2 as [|sy2], endX2 as [|ex2], endY2 as [|ey2];
    try reflexivity.
  rewrite !intersectPlainLines_num. cbn zeta. unfold determinant.
  destruct (decide ((ex2 - sx2) * (ey1 - sy1) - (ex1 - sx1) * (ey2 - sy2) = 0)) as [H|H].
  - rewrite decide_True; [done|].
    transitivity (- ((ex2 - sx2) * (ey1 - sy1) - (ex1 - sx1) * (ey2 - sy2))); [ring|].
    rewrite H. ring.
  - rewrite decide_False.
    + assert (H' : (ex1 - sx1) * (ey2 - sy2) - (ex2 - sx2) * (ey1 - sy1) ≠ 0).
      { intros H'. apply H.
        transitivity (- ((ex1 - sx1) * (ey2 - sy2) - (ex2 - sx2) * (ey1 - sy1))); [ring|].
        rewrite H'. ring. }
      cbn [fst snd]. f_equal; f_equal; field; auto.
    + intros H'. apply H.
      transitivity (- ((ex1 - sx1) * (ey2 - sy2) - (ex2 - sx2) * (ey1 - sy1))); [ring|].
      rewrite H'. ring.
Qed.

(** A line without direction meets nothing. *)
Lemma intersectVectorLines_degenerate (segmentStart segmentEnd point : VectorLike) :
  intersectVectorLines segmentStart segmentEnd point point = (NaN, NaN).
Proof.
  destruct segmentStart as [[|sx] [|sy]], segmentEnd as [[|ex] [|ey]],
           point as [[|px] [|py]]; try reflexivity.
  unfold intersectVectorLines. cbn [fst snd]. rewrite intersectPlainLines_num.
  cbn zeta. rewrite decide_True; [done|]. unfold determinant. ring.
Qed.

(** X5: [cutLineWithPolygon] finds no cut point, and gives the factor [NaN],
    when the polygon has no vertex and when the line has no direction
    ([lineEnd] is [lineStart]), whatever the polygon is. *)
Theorem cutLineWithPolygon_nothing_to_cut (lineStart lineEnd : VectorLike)
    (polygonPoints : list VectorLike) :
  cutLineWithPolygon lineStart lineEnd [] = (None, NaN) ∧
  cutLineWithPolygon lineStart lineStart polygonPoints = (None, NaN).
Proof.
  split; [done|].
  unfold cutLineWithPolygon, cutFactor. rewrite cutFactor_crossings.
  assert (Hnone : ∀ edges : list (VectorLike * VectorLike),
             filter (λ out, cutsSegment out = true)
               ((λ edge, intersectVectorLines edge.1 edge.2 lineStart lineStart) <$> edges)
             = []).
  { induction edges as [|edge edges IH]; [done|].
    cbn [fmap list_fmap]. rewrite filter_cons, intersectVectorLines_degenerate.
    rewrite decide_False by done. apply IH. }
  by rewrite Hnone.
Qed.

Lemma elem_of_edgesFrom (prev : VectorLike) (points : list VectorLike)
    (edge : VectorLike * VectorLike) :
  edge ∈ edgesFrom prev points → edge.1 ∈ points ∧ edge.2 ∈ prev :: points.
Proof.
  revert prev. induction points as [|p points IH]; intros prev; simpl.
  - by intros ?%elem_of_nil.
  - intros [->|Hin]%elem_of_cons.
    + split; [by left|by left].
    + destruct (IH _ Hin) as [H1 H2]. split; [by right|]. by right.
Qed.

Lemma elem_of_polygonEdges (polygonPoints : list VectorLike)
    (edge : VectorLike * VectorLike) :
  edge ∈ polygonEdges polygonPoints →
  edge.1 ∈ polygonPoints ∧ edge.2 ∈ polygonPoints.
Proof.
  unfold polygonEdges. destruct (list.last polygonPoints) as [l|] eqn:Hlast.
  - intros [H1 H2]%elem_of_edgesFrom. split; [done|].
    apply elem_of_cons in H2 as [->|H2]; [|done].
    apply last_Some in Hlast as [l' ->]. apply elem_of_app. right. by left.
  - by intros ?%elem_of_nil.
Qed.

(** ** The order of the vertices of a polygon *)

Lemma edgesFrom_app (prev : VectorLike) (points1 points2 : list VectorLike) :
  edgesFrom prev (points1 ++ points2)
  = edgesFrom prev points1 ++ edgesFrom (default prev (list.last points1)) points2.
Proof.
  revert prev. induction points1 as [|p points1 IH]; intros prev; [done|].
  cbn [app edgesFrom]. rewrite IH, last_cons. by destruct (list.last points1).
Qed.

Lemma polygonEdges_cons (p : VectorLike) (points : list VectorLike) :
  polygonEdges (p :: points) = (p, default p (list.last points)) :: edgesFrom p points.
Proof. unfold polygonEdges. rewrite last_cons. by destruct (list.last points). Qed.

Lemma polygonEdges_snoc (points : list VectorLike) (p : VectorLike) :
  polygonEdges (points ++ [p]) = edgesFrom p points ++ [(p, default p (list.last points))].
Proof. unfold polygonEdges. by rewrite last_snoc, edgesFrom_app. Qed.

(** The edges of a polygon that starts at another vertex are the same. *)
Lemma polygonEdges_cyclic (points1 points2 : list VectorLike) :
  polygonEdges (points1 ++ points2) ≡ₚ polygonEdges (points2 ++ points1).
Proof.
  revert points2. induction points1 as [|p points1 IH]; intros points2.
  - by rewrite app_nil_r.
  - transitivity (polygonEdges ((points1 ++ points2) ++ [p])).
    + cbn [app]. rewrite polygonEdges_cons, polygonEdges_snoc.
      apply Permutation_cons_append.
    + rewrite <- (assoc app). rewrite IH. by rewrite <- (assoc app).
Qed.

(** ** Points in polygons *)

Lemma Qc_eq_Qeq (a b : Qc) : a = b ↔ (this a == this b)%Q.
Proof. split; [by intros ->|apply Qc_is_canon]. Qed.

(** Rational (in)equalities, by linear arithmetic over [Q]. *)
Ltac qc_linear :=
  unfold Qcle, Qclt in *;
  rewrite ?Qc_eq_Qeq in *;
  cbn [this Qcplus Qcminus Qcmult Qcopp Q2Qc] in *;
  repeat match goal with
         | H : context [Qred _] |- _ => rewrite Qred_correct in H
         end;
  rewrite ?Qred_correct;
  lra.

Lemma polygonToggle_xorb point inside edge :
  polygonToggle point inside edge = xorb inside (edgeIntersects point edge).
Proof.
  destruct edge as [vertexI vertexJ]. unfold polygonToggle, edgeIntersects.
  cbn [fst snd]. destruct (if negb _ then _ else false); by destruct inside.
Qed.

Lemma isVectorInPolygon_edges point (edges : list (VectorLike * VectorLike)) inside :
  foldl (polygonToggle point) inside edges
  = foldl xorb inside (edgeIntersects point <$> edges).
Proof.
  revert inside. induction edges as [|edge edges IH]; intros inside; [done|].
  cbn [foldl fmap list_fmap]. by rewrite polygonToggle_xorb, IH.
Qed.

Lemma foldl_xorb_Permutation (bs bs' : list bool) inside :
  bs ≡ₚ bs' → foldl xorb inside bs = foldl xorb inside bs'.
Proof.
  intros Hperm. revert inside.
  induction Hperm as [|b bs bs' _ IH|b1 b2 bs|bs1 bs2 bs3 _ IH1 _ IH2]; intros inside.
  - done.
  - cbn [foldl]. apply IH.
  - cbn [foldl]. f_equal. by destruct inside, b1, b2.
  - by rewrite IH1.
Qed.

(** X10: whether a point is in a polygon does not depend on the vertex the
    list of its vertices starts with: every edge is tested on its own, with
    its two ends in the same order, and the tests are combined by exclusive
    or. *)
Theorem isVectorInPolygon_first_vertex (point : VectorLike)
    (points1 points2 : list VectorLike) :
  isVectorInPolygon point (points2 ++ points1)
  = isVectorInPolygon point (points1 ++ points2).
Proof.
  unfold isVectorInPolygon. rewrite !isVectorInPolygon_edges.
  apply foldl_xorb_Permutation. by rewrite (polygonEdges_cyclic points2 points1).
Qed.

Lemma isVectorInPolygon_none point (edges : list (VectorLike * VectorLike)) :
  (∀ edge, edge ∈ edges → edgeIntersects point edge = false) →
  foldl (polygonToggle point) false edges = false.
Proof.
  induction edges as [|edge edges IH]; intros Hnone; [done|].
  cbn [foldl]. rewrite polygonToggle_xorb, Hnone by (by left).
  apply IH. intros e He. apply Hnone. by right.
Qed.

(** X9: [isVectorInPolygon] is false for a polygon without vertices, for a
    polygon whose vertices are all at the same height (a single vertex, a
    horizontal segment), and for a point one of whose coordinates is [NaN],
    whatever the polygon is. *)
Theorem isVectorInPolygon_degenerate (point : VectorLike)
    (polygonPoints : list VectorLike) (height : number) :
  isVectorInPolygon point [] = false ∧
  ((∀ vertex, vertex ∈ polygonPoints → vertex.2 = height) →
   isVectorInPolygon point polygonPoints = false) ∧
  (point.1 = NaN ∨ point.2 = NaN → isVectorInPolygon point polygonPoints = false).
Proof.
  split; [done|]. split.
  - intros Hflat. apply isVectorInPolygon_none. intros edge Hedge.
    apply elem_of_polygonEdges in Hedge as [H1 H2].
    unfold edgeIntersects. rewrite (Hflat _ H1), (Hflat _ H2). by rewrite eqb_reflx.
  - intros Hnan. apply isVectorInPolygon_none. intros [[xi yi] [xj yj]] _.
    unfold edgeIntersects, ngt, nlt. cbn [fst snd].
    destruct point as [px py]. cbn [fst snd] in *. destruct Hnan as [-> | ->].
    + by destruct (negb _).
    + by destruct yi, yj.
Qed.

(** The ray test on a vertical and on a horizontal edge. *)
Lemma edgeIntersects_vertical (px py a yi yj : Qc) :
  edgeIntersects (Num px, Num py) ((Num a, Num yi), (Num a, Num yj))
  = negb (eqb (bool_decide (py < yi)) (bool_decide (py < yj))) && bool_decide (px < a).
Proof.
  unfold edgeIntersects, ngt, nlt. cbn [fst snd nsub nmul ndiv].
  destruct (negb (eqb (bool_decide (py < yi)) (bool_decide (py < yj)))) eqn:Hcross; [|done].
  assert (Hne : yj - yi ≠ 0).
  { intros H. assert (yi = yj) as -> by qc_linear. by rewrite eqb_reflx in Hcross. }
  rewrite decide_False by done. cbn [nadd andb]. apply bool_decide_ext.
  replace ((a - a) * (py - yi) / (yj - yi) + a) with a; [done|]. by field.
Qed.

Lemma edgeIntersects_horizontal (point : VectorLike) (xi xj y : number) :
  edgeIntersects point ((xi, y), (xj, y)) = false.
Proof. unfold edgeIntersects. cbn [fst snd]. by rewrite eqb_reflx. Qed.

(** X8: for an upright rectangle given as the four [[x, y]] arrays of its
    corners (left top, right top, right bottom, left bottom, with the left
    side left of the right one and the top side above the bottom one),
    [isVectorInPolygon] is true exactly for the points with
    [left <= px < right] and [top <= py < bottom]: the left and the top
    side belong to the rectangle, the right and the bottom side do not.
    (On a vertical edge the product [(xj - xi) * (y - yi)] is zero, so the
    test compares [px] with the [x] of the edge itself.) *)
Theorem isVectorInPolygon_rectangle (left top right bottom px py : Qc) :
  left < right → top < bottom →
  isVectorInPolygon (Num px, Num py) (rectanglePolygon left top right bottom) = true
  ↔ (left ≤ px ∧ px < right) ∧ (top ≤ py ∧ py < bottom).
Proof.
  intros Hwidth Hheight. unfold isVectorInPolygon, rectanglePolygon, polygonEdges.
  cbn [list.last edgesFrom foldl].
  rewrite !polygonToggle_xorb.
  rewrite !edgeIntersects_vertical, !edgeIntersects_horizontal.
  rewrite !xorb_false_r, xorb_false_l.
  destruct (decide (py < top)) as [Hy|Hy], (decide (py < bottom)) as [Hyh|Hyh],
           (decide (px < left)) as [Hx|Hx], (decide (px < right)) as [Hxw|Hxw];
    rewrite ?(bool_decide_eq_true_2 _ Hy), ?(bool_decide_eq_false_2 _ Hy),
      ?(bool_decide_eq_true_2 _ Hyh), ?(bool_decide_eq_false_2 _ Hyh),
      ?(bool_decide_eq_true_2 _ Hx), ?(bool_decide_eq_false_2 _ Hx),
      ?(bool_decide_eq_true_2 _ Hxw), ?(bool_decide_eq_false_2 _ Hxw);
    cbn [eqb negb andb xorb];
    (split; [try discriminate; intros _|try (intros _; reflexivity)]);
    try (repeat split; qc_linear);
    intros [[? ?] [? ?]]; exfalso; qc_linear.
Qed.

Lemma isVectorInPolygon_rectangle_witness :
  isVectorInPolygon (ofZ 0, ofZ 0) (rectanglePolygon 0 0 1 1) = true ∧
  isVectorInPolygon (ofZ 1, ofZ 1) (rectanglePolygon 0 0 1 1) = false.
Proof.
  split.
  - apply (isVectorInPolygon_rectangle 0 0 1 1 0 0); [by_compute|by_compute|].
    repeat split; by_compute.
  - apply not_true_is_false. intros Hin.
    apply (isVectorInPolygon_rectangle 0 0 1 1 1 1) in Hin as [[_ Hx] _];
      [|by_compute|by_compute].
    revert Hx. by_compute.
Defined.

(** ** More of the legacy rule importer *)

(** A rule the importer ignores starts with none of the characters the
    other rule forms start with. *)
Lemma ignoredRule_first_char (c : ascii) (rest : string) :
  ignoredRulesRegExp (String c rest) = true →
  c ≠ "r"%char ∧ c ≠ "s"%char ∧ c ≠ "f"%char ∧ c ≠ "c"%char.
Proof.
  intros Hignored. repeat split; intros ->; cbn in Hignored; discriminate Hignored.
Qed.

Lemma processRule_ignored (E : Collaborators) (st : ImportState) (rule : string) :
  ignoredRulesRegExp rule = true → processRule E st rule = st.
Proof.
  intros Hignored. unfold processRule.
  assert (Hforms : rotateRuleRegExp rule = None ∧ rule ≠ "star=yes" ∧
                   filtersRuleRegExp rule = None ∧ cropRuleRegExp rule = None).
  { destruct rule as [|c rest]; [by repeat split|].
    destruct (ignoredRule_first_char c rest Hignored) as (Hr & Hs & Hf & Hc).
    unfold rotateRuleRegExp, filtersRuleRegExp, cropRuleRegExp. cbn [stripPrefix].
    rewrite !decide_False by (by intros <-). repeat split; try done.
    by intros [= -> _]. }
  destruct Hforms as (-> & Hstar & -> & ->).
  rewrite bool_decide_eq_false_2 by done. by rewrite Hignored.
Qed.

(** X11: a rule of the ignore list (a blank rule, or one that starts with
    [backuphash=], [width=], [height=], [moddate=] or [textactive=0])
    changes nothing: wherever it stands in the rule list, the edit record
    and the warning are the same as without it. *)
Theorem ignored_rule_changes_nothing (E : Collaborators) (rules1 rules2 : list string)
    (rule : string) (directoryPath photoBasename : string)
    (masterWidth masterHeight : number) :
  ignoredRulesRegExp rule = true →
  importRules E (rules1 ++ rule :: rules2) = importRules E (rules1 ++ rules2) ∧
  createPhotoWorkFromPicasaRules E (rules1 ++ rule :: rules2) directoryPath photoBasename
    masterWidth masterHeight
  = createPhotoWorkFromPicasaRules E (rules1 ++ rules2) directoryPath photoBasename
      masterWidth masterHeight.
Proof.
  intros Hignored.
  assert (Himport : importRules E (rules1 ++ rule :: rules2) = importRules E (rules1 ++ rules2)).
  { unfold importRules. rewrite !foldl_app. cbn [foldl].
    by rewrite processRule_ignored. }
  split; [done|]. unfold createPhotoWorkFromPicasaRules. by rewrite Himport.
Qed.

Lemma ignored_rule_changes_nothing_witness :
  createPhotoWorkFromPicasaRules inertCollaborators
    ["star=yes"; "backuphash=12345"; "   "; "moddate=0a1b"] "/photos" "a.jpg"
    (ofZ 1000) (ofZ 1000)
  = (flaggedWork, None).
Proof.
  etrans;
    [exact (proj2 (ignored_rule_changes_nothing inertCollaborators ["star=yes"]
                     ["   "; "moddate=0a1b"] "backuphash=12345" "/photos" "a.jpg"
                     (ofZ 1000) (ofZ 1000) eq_refl))|].
  reflexivity.
Defined.

(** *** The crop rectangle lies within the master image *)

Lemma cropValuesOfFilter_hex filter value :
  value ∈ cropValuesOfFilter filter → allChars isLowerHex value = true.
Proof.
  unfold cropValuesOfFilter, cropFilterRegExp.
  destruct (tiltFilterRegExp filter); [by intros ?%elem_of_nil|].
  destruct (stripPrefix "crop64=1," filter) as [hex|]; simpl; [|by intros ?%elem_of_nil].
  case_bool_decide; simpl; [|by intros ?%elem_of_nil].
  destruct (allChars isLowerHex hex) eqn:Hhex; [|by intros ?%elem_of_nil].
  by intros ->%list_elem_of_singleton.
Qed.

Lemma cropValuesOfRule_hex rule value :
  value ∈ cropValuesOfRule rule → allChars isLowerHex value = true.
Proof.
  unfold cropValuesOfRule, cropRuleRegExp.
  destruct (rotateRuleRegExp rule); [by intros ?%elem_of_nil|].
  case_bool_decide; [by intros ?%elem_of_nil|].
  destruct (filtersRuleRegExp rule) as [filters|].
  { intros (f & Hv & _)%list_elem_of_bind. by eapply cropValuesOfFilter_hex. }
  destruct (stripPrefix "crop=rect64(" rule) as [rest|]; simpl; [|by intros ?%elem_of_nil].
  destruct (stripLast ")" rest) as [hex|]; simpl; [|by intros ?%elem_of_nil].
  case_bool_decide; simpl; [|by intros ?%elem_of_nil].
  destruct (allChars isLowerHex hex) eqn:Hhex; [|by intros ?%elem_of_nil].
  by intros ->%list_elem_of_singleton.
Qed.

Lemma cropRectAfter_elem_of seen values crop :
  cropRectAfter seen values = Some crop → seen = Some crop ∨ crop ∈ values.
Proof.
  revert seen. induction values as [|value values IH]; intros seen Hafter; [by left|].
  cbn [cropRectAfter] in Hafter. destruct (IH _ Hafter) as [Hseen|Hin].
  - destruct (truthyString seen); [by left|].
    injection Hseen as ->. right. by left.
  - right. by right.
Qed.

(** The crop value the importer keeps is a capture of [[0-9a-f]+]. *)
Lemma importRules_crop_hex (E : Collaborators) (rules : list string) (crop : string) :
  picasaCropRect (importRules E rules) = Some crop → allChars isLowerHex crop = true.
Proof.
  intros Hcrop.
  pose proof (processRules_view E
    {| photoWork := []; importProblems := []; picasaCropRect := None |} rules) as Hview.
  apply (f_equal fst) in Hview. cbn [fst cropView picasaCropRect] in Hview.
  unfold importRules in Hcrop. rewrite Hcrop in Hview. symmetry in Hview.
  apply cropRectAfter_elem_of in Hview as [?|Hin]; [done|].
  apply list_elem_of_bind in Hin as (rule & Hvalue & _). by eapply cropValuesOfRule_hex.
Qed.

Lemma append_String (c : ascii) (s1 s2 : string) :
  String c s1 +:+ s2 = String c (s1 +:+ s2).
Proof. reflexivity. Qed.

Lemma zeros_append (n : nat) (s : string) :
  zeros (S n) +:+ s = zeros n +:+ String "0" s.
Proof.
  induction n as [|n IH]; [done|].
  change (zeros (S (S n))) with (String "0" (zeros (S n))).
  change (zeros (S n)) with (String "0" (zeros n)) at 2.
  by rewrite !append_String, IH.
Qed.

Lemma length_zeros_append (n : nat) (s : string) :
  String.length (zeros n +:+ s) = (n + String.length s)%nat.
Proof.
  induction n as [|n IH]; [done|].
  cbn [zeros]. rewrite append_String. cbn [String.length]. by rewrite IH.
Qed.

Lemma allChars_zeros_append (n : nat) (s : string) :
  allChars isLowerHex (zeros n +:+ s) = allChars isLowerHex s.
Proof.
  induction n as [|n IH]; [done|].
  cbn [zeros]. rewrite append_String. cbn [allChars]. by rewrite IH.
Qed.

(** The loop that pads a crop value needs at most sixteen rounds. *)
Lemma padCropRect_zeros (fuel : nat) (crop : string) :
  (16 - String.length crop ≤ fuel)%nat →
  padCropRect fuel crop = zeros (16 - String.length crop) +:+ crop.
Proof.
  revert crop. induction fuel as [|fuel IH]; intros crop Hfuel.
  - cbn [padCropRect]. by replace (16 - String.length crop)%nat with 0%nat by lia.
  - cbn [padCropRect]. destruct (Nat.ltb_spec (String.length crop) 16) as [Hshort|Hlong].
    + change ("0" +:+ crop) with (String "0" crop).
      rewrite IH by (cbn [String.length]; lia).
      cbn [String.length].
      replace (16 - String.length crop)%nat with (S (16 - S (String.length crop))) by lia.
      by rewrite zeros_append.
    + by replace (16 - String.length crop)%nat with 0%nat by lia.
Qed.

Lemma isLowerHex_digitValue (c : ascii) :
  isLowerHex c = true → ∃ d, digitValue c = Some d ∧ (0 ≤ d < 16)%Z.
Proof.
  destruct c as [[] [] [] [] [] [] [] []]; intros Hhex; try discriminate Hhex;
    (eexists; split; [reflexivity|]; vm_compute; split; [discriminate|reflexivity]).
Qed.

(** A group of four hexadecimal digits reads as an integer up to [0xffff]. *)
Lemma parseInt_hex_group (a b c d : ascii) :
  isLowerHex a = true → isLowerHex b = true → isLowerHex c = true → isLowerHex d = true →
  ∃ value, parseInt (String a (String b (String c (String d EmptyString)))) 16 = ofZ value ∧
           (0 ≤ value ≤ 65535)%Z.
Proof.
  intros (da & Ha & Hda)%isLowerHex_digitValue (db & Hb & Hdb)%isLowerHex_digitValue
         (dc & Hc & Hdc)%isLowerHex_digitValue (dd & Hd & Hdd)%isLowerHex_digitValue.
  unfold parseInt. cbn [leadingDigits]. rewrite Ha, Hb, Hc, Hd.
  rewrite !(proj2 (Z.ltb_lt _ _)) by lia.
  eexists. split; [reflexivity|]. unfold digitsValue. cbn [foldl]. lia.
Qed.

Lemma length_sixteen (s : string) :
  String.length s = 16%nat →
  ∃ l1 l2 l3 l4 t1 t2 t3 t4 r1 r2 r3 r4 b1 b2 b3 b4,
    s = String l1 (String l2 (String l3 (String l4 (String t1 (String t2 (String t3
          (String t4 (String r1 (String r2 (String r3 (String r4 (String b1 (String b2
          (String b3 (String b4 EmptyString))))))))))))))).
Proof.
  intros Hlength.
  do 16 (destruct s as [|? s]; [discriminate Hlength|]).
  destruct s; [|discriminate Hlength]. repeat eexists.
Qed.

Lemma Qcmult_nonneg (a b : Qc) : 0 ≤ a → 0 ≤ b → 0 ≤ a * b.
Proof.
  unfold Qcle. cbn [this Qcmult Q2Qc]. rewrite !Qred_correct.
  apply Qmult_le_0_compat.
Qed.

(** A share [value / 0xffff] of a length that is not negative lies between
    zero and that length. *)
Lemma share_within (value : Z) (length : Qc) :
  (0 ≤ value ≤ 65535)%Z → 0 ≤ length →
  ∃ q, (ofZ value / ofZ 65535 * Num length)%js = Num q ∧ 0 ≤ q ∧ q ≤ length.
Proof.
  intros Hvalue Hlength. unfold ofZ. cbn [ndiv nmul].
  rewrite decide_False by (by apply (bool_decide_eq_false_1 _)).
  eexists. split; [reflexivity|].
  assert (Hshare : 0 ≤ Q2Qc (inject_Z value) / Q2Qc (inject_Z 65535) ∧
                   Q2Qc (inject_Z value) / Q2Qc (inject_Z 65535) ≤ 1).
  { assert (Heq : Q2Qc (inject_Z value) / Q2Qc (inject_Z 65535) = Q2Qc (value # 65535)).
    { apply Qc_is_canon. cbn [this Qcdiv Qcmult Qcinv Q2Qc].
      rewrite !Qred_correct. symmetry. apply Qmake_Qdiv. }
    rewrite Heq. unfold Qcle. cbn [this Q2Qc]. rewrite !Qred_correct.
    unfold Qle. cbn. lia. }
  destruct Hshare as [Hlow Hhigh]. split.
  - by apply Qcmult_nonneg.
  - rewrite <- (Qcmult_1_l length) at 2. by apply Qcmult_le_compat_r.
Qed.

(** The rectangle between two points of an interval lies in the interval. *)
Lemma rect_side_within (a b length : Qc) :
  0 ≤ a → a ≤ length → 0 ≤ b → b ≤ length →
  ∃ low size, Math_min (Num a) (Num b) = Num low ∧
              Math_abs (Num a - Num b)%js = Num size ∧
              0 ≤ low ∧ 0 ≤ size ∧ low + size ≤ length.
Proof.
  intros Ha0 Ha1 Hb0 Hb1. cbn [nsub]. destruct (decide (a ≤ b)) as [Hab|Hba].
  - exists a, (- (a - b)). rewrite Math_min_le, Math_abs_of_nonpos by (done || qc_linear).
    repeat split; try done; qc_linear.
  - apply Qcnot_le_lt in Hba. exists b, (a - b).
    rewrite Math_min_ge, Math_abs_of_nonneg by qc_linear.
    repeat split; try done; qc_linear.
Qed.

Lemma decodeCropRect_within (crop : string) (masterWidth masterHeight : Qc) :
  allChars isLowerHex crop = true → (String.length crop ≤ 16)%nat →
  0 ≤ masterWidth → 0 ≤ masterHeight →
  ∃ x y width height,
    decodeCropRect crop (Num masterWidth) (Num masterHeight) = rect x y width height ∧
    0 ≤ x ∧ 0 ≤ y ∧ 0 ≤ width ∧ 0 ≤ height ∧
    x + width ≤ masterWidth ∧ y + height ≤ masterHeight.
Proof.
  intros Hhex Hlength Hwidth Hheight. unfold decodeCropRect.
  rewrite padCropRect_zeros by lia.
  rewrite <- (allChars_zeros_append (16 - String.length crop)) in Hhex.
  destruct (length_sixteen (zeros (16 - String.length crop) +:+ crop))
    as (l1 & l2 & l3 & l4 & t1 & t2 & t3 & t4 & r1 & r2 & r3 & r4 & b1 & b2 & b3 & b4 & Hpadded).
  { rewrite length_zeros_append. lia. }
  rewrite Hpadded in *. clear Hpadded.
  cbn [allChars] in Hhex. rewrite !andb_true_iff in Hhex.
  destruct Hhex as (Hl1 & Hl2 & Hl3 & Hl4 & Ht1 & Ht2 & Ht3 & Ht4 &
                    Hr1 & Hr2 & Hr3 & Hr4 & Hb1 & Hb2 & Hb3 & Hb4 & _).
  unfold String_substring. cbn [String.substring Nat.sub].
  destruct (parseInt_hex_group l1 l2 l3 l4) as (left & -> & Hleft); try done.
  destruct (parseInt_hex_group t1 t2 t3 t4) as (top & -> & Htop); try done.
  destruct (parseInt_hex_group r1 r2 r3 r4) as (right & -> & Hright); try done.
  destruct (parseInt_hex_group b1 b2 b3 b4) as (bottom & -> & Hbottom); try done.
  destruct (share_within left masterWidth Hleft Hwidth) as (x1 & -> & Hx1 & Hx1').
  destruct (share_within top masterHeight Htop Hheight) as (y1 & -> & Hy1 & Hy1').
  destruct (share_within right masterWidth Hright Hwidth) as (x2 & -> & Hx2 & Hx2').
  destruct (share_within bottom masterHeight Hbottom Hheight) as (y2 & -> & Hy2 & Hy2').
  destruct (rect_side_within x1 x2 masterWidth) as (x & width & Hx & Hw & ? & ? & ?); try done.
  destruct (rect_side_within y1 y2 masterHeight) as (y & height & Hy & Hh & ? & ? & ?); try done.
  exists x, y, width, height. unfold rectFromPoints, rect. cbn [fst snd].
  by rewrite Hx, Hw, Hy, Hh.
Qed.

(** X13: whatever the rule list, the crop rectangle on the canvas of the
    master image that the importer hands to the reconciliation lies within
    the master image, when the width and the height of the master are not
    negative: its origin, width and height are numbers that are not
    negative, and it ends at or before the right and the bottom border.
    (A crop value of more than sixteen digits gives the whole master, a
    shorter one is padded with zeros on the left.) *)
Theorem picasaCanvasRect_within_master (E : Collaborators) (picasaRules : list string)
    (masterWidth masterHeight : Qc) :
  0 ≤ masterWidth → 0 ≤ masterHeight →
  ∃ x y width height,
    (picasaCanvasRect (importRules E picasaRules) (Num masterWidth) (Num masterHeight)).1
    = rect x y width height ∧
    0 ≤ x ∧ 0 ≤ y ∧ 0 ≤ width ∧ 0 ≤ height ∧
    x + width ≤ masterWidth ∧ y + height ≤ masterHeight.
Proof.
  intros Hwidth Hheight.
  assert (Hwhole : ∃ x y width height,
    Rect.mk (ofZ 0) (ofZ 0) (Num masterWidth) (Num masterHeight) = rect x y width height ∧
    0 ≤ x ∧ 0 ≤ y ∧ 0 ≤ width ∧ 0 ≤ height ∧
    x + width ≤ masterWidth ∧ y + height ≤ masterHeight).
  { exists 0, 0, masterWidth, masterHeight.
    split; [reflexivity|]. repeat split; try done; qc_linear. }
  unfold picasaCanvasRect.
  destruct (picasaCropRect (importRules E picasaRules)) as [crop|] eqn:Hcrop; [|done].
  destruct (truthyString (Some crop)); [|done].
  destruct (Nat.ltb_spec 16 (String.length crop)) as [Hlong|Hshort]; [done|].
  cbn [fst]. apply decodeCropRect_within; try done.
  by apply (importRules_crop_hex E picasaRules).
Qed.

Lemma picasaCanvasRect_within_master_witness :
  ∃ x y width height,
    (picasaCanvasRect
       (importRules inertCollaborators ["filters=crop64=1,5bcb59418507;"; "star=yes"])
       (ofZ 4000) (ofZ 3000)).1
    = rect x y width height ∧
    0 ≤ x ∧ 0 ≤ y ∧ 0 ≤ width ∧ 0 ≤ height ∧
    x + width ≤ Q2Qc (inject_Z 4000) ∧ y + height ≤ Q2Qc (inject_Z 3000).
Proof.
  apply (picasaCanvasRect_within_master inertCollaborators
           ["filters=crop64=1,5bcb59418507;"; "star=yes"]
           (Q2Qc (inject_Z 4000)) (Q2Qc (inject_Z 3000))); by_compute.
Defined.

(** ** The canonical order of [toCanonical] *)

Lemma insertSorted_Permutation (key : string) (sorted : list string) :
  insertSorted key sorted ≡ₚ key :: sorted.
Proof.
  induction sorted as [|k sorted IH]; [done|]. cbn [insertSorted].
  destruct (String.leb key k); [done|]. by rewrite IH, Permutation_swap.
Qed.

Lemma Array_sort_Permutation (keys : list string) : Array_sort keys ≡ₚ keys.
Proof.
  unfold Array_sort. induction keys as [|key keys IH]; [done|]. cbn [foldr].
  by rewrite insertSorted_Permutation, IH.
Qed.

Lemma insertSorted_Sorted (key : string) (sorted : list string) :
  Sorted keyLe sorted → Sorted keyLe (insertSorted key sorted).
Proof.
  induction 1 as [|k sorted Hsorted IH Hhead]; cbn [insertSorted].
  - by repeat constructor.
  - destruct (String.leb key k) eqn:Hle.
    + by repeat constructor.
    + constructor; [done|].
      assert (Hkey : keyLe k key).
      { destruct (String.leb_total key k) as [Hle'|Hle']; [congruence|done]. }
      destruct Hhead as [|k' sorted Hk']; cbn [insertSorted]; [by constructor|].
      destruct (String.leb key k'); by constructor.
Qed.

Lemma Array_sort_Sorted (keys : list string) : Sorted keyLe (Array_sort keys).
Proof.
  unfold Array_sort. induction keys as [|key keys IH]; [constructor|].
  cbn [foldr]. by apply insertSorted_Sorted.
Qed.

(** Sorting a list that is sorted leaves it as it is. *)
Lemma Array_sort_of_Sorted (keys : list string) :
  Sorted keyLe keys → Array_sort keys = keys.
Proof.
  unfold Array_sort. induction 1 as [|key keys Hsorted IH Hhead]; [done|].
  cbn [foldr]. rewrite IH. destruct Hhead as [|key' keys Hle]; [done|].
  cbn [insertSorted]. unfold keyLe in Hle. by rewrite Hle.
Qed.

Section CanonicalOrder.
Context {V : Type}.
Implicit Types obj sortedObj : list (string * V).

Lemma Object_keys_propertiesOf obj (keys : list string) :
  keys ⊆ Object_keys obj → Object_keys (propertiesOf obj keys) = keys.
Proof.
  unfold Object_keys, propertiesOf. induction keys as [|key keys IH]; [done|].
  intros Hkeys. cbn [omap list_omap].
  destruct (proj2 (getProp_is_Some obj key)) as [value Hvalue].
  { apply Hkeys. by left. }
  rewrite Hvalue. cbn [fmap option_fmap option_map list_fmap fst]. f_equal.
  apply IH. intros k Hk. apply Hkeys. by right.
Qed.

(** The loop of [toCanonical] over keys that are no array indices and that
    the new object does not have yet appends the properties one by one. *)
Lemma toCanonical_fold obj sortedObj (keys : list string) :
  NoDup keys → Forall (λ key, arrayIndex key = None) keys →
  (∀ key, key ∈ keys → key ∉ Object_keys sortedObj) →
  foldl (λ sortedObj key,
           match getProp obj key with
           | Some value => setProp sortedObj key value
           | None => sortedObj
           end) sortedObj keys
  = sortedObj ++ propertiesOf obj keys.
Proof.
  intros Hnodup. revert sortedObj.
  induction Hnodup as [|key keys Hkey Hnodup IH]; intros sortedObj Hplain Hfresh.
  - by rewrite app_nil_r.
  - apply list.Forall_cons in Hplain as [Hplain1 Hplain].
    cbn [foldl]. unfold propertiesOf. cbn [omap list_omap].
    fold (propertiesOf obj keys).
    destruct (getProp obj key) as [value|] eqn:Hvalue;
      cbn [fmap option_fmap option_map].
    + assert (Hset : setProp sortedObj key value = sortedObj ++ [(key, value)]).
      { unfold setProp. rewrite (proj2 (getProp_None sortedObj key)), Hplain1; [done|].
        apply Hfresh. by left. }
      rewrite Hset, IH; [by rewrite <- (assoc app)|done|].
      intros k Hk. unfold Object_keys. rewrite fmap_app, elem_of_app.
      intros [Hin|Hin].
      * by apply (Hfresh k); [right|].
      * apply list_elem_of_singleton in Hin. cbn in Hin. by subst.
    + apply IH; [done|]. intros k Hk. apply Hfresh. by right.
Qed.

Lemma toCanonical_plain obj :
  plainKeys obj →
  toCanonical obj = propertiesOf obj (Array_sort (Object_keys obj)).
Proof.
  intros [Hnodup Hplain]. unfold toCanonical. cbn zeta.
  rewrite toCanonical_fold; [done| | |].
  - by rewrite Array_sort_Permutation.
  - by rewrite Array_sort_Permutation.
  - intros key _. apply not_elem_of_nil.
Qed.

Lemma propertiesOf_ext obj1 obj2 (keys : list string) :
  (∀ key, getProp obj1 key = getProp obj2 key) →
  propertiesOf obj1 keys = propertiesOf obj2 keys.
Proof.
  intros Hsame. unfold propertiesOf. induction keys as [|key keys IH]; [done|].
  cbn [omap list_omap]. by rewrite Hsame, IH.
Qed.
End CanonicalOrder.

(** X14: on an object whose keys are plain property names (none is an
    array index), [toCanonical] returns the same properties with the keys
    in the order of [sort()]: the keys of the result are the sorted keys of
    the object, they are in ascending order, no property is lost, added or
    changed, and a second [toCanonical] changes nothing. *)
Theorem toCanonical_sorts_plain_keys {V : Type} (obj : list (string * V)) :
  plainKeys obj →
  Object_keys (toCanonical obj) = Array_sort (Object_keys obj) ∧
  Sorted keyLe (Object_keys (toCanonical obj)) ∧
  Object_keys (toCanonical obj) ≡ₚ Object_keys obj ∧
  (∀ key, getProp (toCanonical obj) key = getProp obj key) ∧
  toCanonical (toCanonical obj) = toCanonical obj.
Proof.
  intros Hplain.
  assert (Hkeys : Object_keys (toCanonical obj) = Array_sort (Object_keys obj)).
  { rewrite (toCanonical_plain obj Hplain). apply Object_keys_propertiesOf.
    intros key. by rewrite elem_of_Array_sort. }
  split; [done|]. rewrite Hkeys.
  split; [apply Array_sort_Sorted|].
  split; [apply Array_sort_Permutation|].
  split; [apply getProp_toCanonical|].
  assert (Hplain' : plainKeys (toCanonical obj)).
  { destruct Hplain as [Hnodup Hnames]. unfold plainKeys.
    by rewrite Hkeys, Array_sort_Permutation. }
  rewrite (toCanonical_plain _ Hplain'), Hkeys.
  rewrite (Array_sort_of_Sorted _ (Array_sort_Sorted _)).
  etrans; [apply propertiesOf_ext, getProp_toCanonical|].
  symmetry. by apply toCanonical_plain.
Qed.

Lemma toCanonical_sorts_plain_keys_witness :
  Object_keys (toCanonical [("b.jpg", flaggedWork); ("a.jpg", []); ("IMG_10.jpg", flaggedWork)])
  = ["IMG_10.jpg"; "a.jpg"; "b.jpg"].
Proof.
  rewrite (proj1 (toCanonical_sorts_plain_keys
                    [("b.jpg", flaggedWork); ("a.jpg", []); ("IMG_10.jpg", flaggedWork)]
                    ltac:(split; by_compute))).
  reflexivity.
Defined.

(** The proviso of X14 is needed: keys that are array indices are
    enumerated first and in numeric order, whatever the order they were
    assigned in. *)
Example toCanonical_index_keys :
  Object_keys (toCanonical [("9", true); ("10", false)]) = ["9"; "10"] ∧
  Array_sort ["9"; "10"] = ["10"; "9"].
Proof. split; reflexivity. Qed.

(** ** Parsing a well-formed [picasa.ini] *)

Lemma stripLast_append (c : ascii) (s : string) :
  stripLast c (s +:+ String c EmptyString) = Some s.
Proof.
  induction s as [|a s IH].
  { change (stripLast c (String c EmptyString) = Some EmptyString).
    cbn [stripLast]. by rewrite decide_True. }
  rewrite append_String. cbn [stripLast].
  destruct (s +:+ String c EmptyString) eqn:Hs; [by destruct s|].
  by rewrite IH.
Qed.

(** A header line reads as a header, with the name between the brackets. *)
Lemma sectionStartRegExp_header (name : string) :
  allChars (λ c, negb (isLineTerminator c)) name = true →
  sectionStartRegExp ("[" +:+ name +:+ "]") = Some name.
Proof.
  intros Hname. unfold sectionStartRegExp.
  change ("[" +:+ name +:+ "]") with (String "[" (name +:+ "]")).
  cbn [stripPrefix]. rewrite decide_True by done. cbn [mbind option_bind].
  rewrite stripLast_append. cbn [mbind option_bind]. by rewrite Hname.
Qed.

Section WellFormedFiles.
Context (editedPicasaData : option PicasaData.t).

Lemma onLine_body (p : SectionParser) (body : list string) :
  Forall (λ line, sectionStartRegExp line = None) body →
  foldl (onLine editedPicasaData) p body
  = {| picasaData := picasaData p;
       currentSectionKey := currentSectionKey p;
       currentSectionRules := currentSectionRules p ++ body |}.
Proof.
  intros Hbody. revert p. induction Hbody as [|line body Hline _ IH]; intros p.
  - rewrite app_nil_r. by destruct p.
  - cbn [foldl]. rewrite IH. unfold onLine. rewrite Hline.
    cbn [picasaData currentSectionKey currentSectionRules].
    by rewrite <- (assoc app).
Qed.

Lemma onLine_section (p : SectionParser) (section : string * list string) :
  wellFormedSection section →
  foldl (onLine editedPicasaData) p (sectionLines section)
  = {| picasaData := picasaData (flushCurrentSection editedPicasaData p);
       currentSectionKey := Some section.1;
       currentSectionRules :=
         currentSectionRules (flushCurrentSection editedPicasaData p) ++ section.2 |}.
Proof.
  intros (_ & Hname & Hbody). unfold sectionLines. cbn [foldl].
  rewrite (onLine_body _ _ Hbody). unfold onLine at 1 2 3.
  by rewrite (sectionStartRegExp_header _ Hname).
Qed.

Lemma flushCurrentSection_sections (sections : list (string * list string)) :
  Forall wellFormedSection sections →
  ∀ p, currentSectionRules (flushCurrentSection editedPicasaData p) = [] →
  PicasaData.photos
    (picasaData (flushCurrentSection editedPicasaData
                   (foldl (onLine editedPicasaData) p (renderPicasaIni sections))))
  = foldl (λ photos section,
             <[section.1 := section.2 ++ editedRulesOf editedPicasaData section.1]> photos)
          (PicasaData.photos (picasaData (flushCurrentSection editedPicasaData p)))
          sections.
Proof.
  induction 1 as [|section sections Hsection _ IH]; intros p Hflushed; [done|].
  unfold renderPicasaIni in *. cbn [mbind list_bind foldl]. rewrite foldl_app.
  rewrite (onLine_section _ _ Hsection), Hflushed. cbn [app].
  match goal with |- context [foldl (onLine _) ?q _] => set (p1 := q) end.
  assert (Hp1 : flushCurrentSection editedPicasaData p1
                = {| picasaData :=
                       PicasaData.mk
                         (<[section.1 := section.2 ++ editedRulesOf editedPicasaData section.1]>
                            (PicasaData.photos
                               (picasaData (flushCurrentSection editedPicasaData p))));
                     currentSectionKey := None;
                     currentSectionRules := [] |}).
  { unfold flushCurrentSection at 1, p1.
    cbn [currentSectionKey currentSectionRules picasaData truthyString].
    destruct Hsection as (Hnonempty & _).
    rewrite (bool_decide_eq_true_2 _ Hnonempty). unfold editedRulesOf.
    destruct (editedPicasaData ≫= _); cbn [default]; [done|by rewrite app_nil_r]. }
  rewrite IH by (by rewrite Hp1). by rewrite Hp1.
Qed.
End WellFormedFiles.

(** X15: parsing a well-formed [picasa.ini].  For a file that is a
    sequence of sections (a header with a name that is not empty, then
    rule lines none of which reads as a header), the parser returns
    for each name the rule lines of its section, followed by the rules the
    edited image of that name has in the parent directory, if any; of two
    sections with one name the later one counts. *)
Theorem parsePicasaIni_renderPicasaIni (editedPicasaData : option PicasaData.t)
    (sections : list (string * list string)) :
  Forall wellFormedSection sections →
  PicasaData.photos (parsePicasaIni editedPicasaData (renderPicasaIni sections))
  = recordSections editedPicasaData sections.
Proof.
  intros Hsections. unfold parsePicasaIni, recordSections.
  by rewrite (flushCurrentSection_sections editedPicasaData sections Hsections).
Qed.

Lemma parsePicasaIni_renderPicasaIni_witness :
  PicasaData.photos
    (parsePicasaIni (Some (PicasaData.mk {[ "a.jpg" := ["star=yes"] ]}))
       ["[a.jpg]"; "rotate=rotate(1)"; "backuphash=1"; "[b.jpg]"])
  = {[ "a.jpg" := ["rotate=rotate(1)"; "backuphash=1"; "star=yes"]; "b.jpg" := [] ]}.
Proof.
  etrans;
    [apply (parsePicasaIni_renderPicasaIni
              (Some (PicasaData.mk {[ "a.jpg" := ["star=yes"] ]}))
              [("a.jpg", ["rotate=rotate(1)"; "backuphash=1"]); ("b.jpg", [])])|].
  - repeat constructor; by_compute.
  - by_compute.
Defined.

(** ** Stores while a store promise is pending *)

(** X19: each store is written once.  A call of [storePhotoWork] of an
    instance that has a store promise pending reads nothing: it changes the
    record in the instance and asks for a follow-up.  If the delay of the
    pending promise is not over, that promise writes the record with the
    others and the instance is idle when it is fulfilled; if the promise
    is past its writing, its fulfilment starts one more store promise,
    which writes the record and leaves the instance idle. *)
Theorem store_while_promise_pending (now : Z) (io : FetchIO) (dw dw1 : DirectoryWork)
    (photoBasename : string) (photoWork : PhotoWork)
    (sidecar : option DirectoryWorkData.t) :
  is_Some (data dw) → isStoreRunning dw = true → runningFetch dw = false →
  storePhotoWork now io dw photoBasename photoWork = Some dw1 →
  ownPhotos dw1 = storedPhotos (ownPhotos dw) photoBasename photoWork ∧
  isStoreRunning dw1 = true ∧ needsStoreFollowup dw1 = true ∧
  (DirectoryWorkData.photos (fetchAnselJson (storeCycle dw1 sidecar).2) = ownPhotos dw1 ∧
   isIdle (storeCycleDone (storeCycle dw1 sidecar).1) = true) ∧
  (isStoreRunning (storeCycleDone dw1) = true ∧
   DirectoryWorkData.photos (fetchAnselJson (storeCycle (storeCycleDone dw1) sidecar).2)
   = ownPhotos dw1 ∧
   isIdle (storeCycleDone (storeCycle (storeCycleDone dw1) sidecar).1) = true).
Proof.
  intros [cached Hcached] Hrunning Hfetching Hstore.
  unfold storePhotoWork in Hstore.
  rewrite (fetchData_while_storing now io dw cached Hcached) in Hstore
    by (by rewrite Hrunning).
  injection Hstore as <-. unfold onDataChanged, ownPhotos.
  cbn [isStoreRunning data needsStoreFollowup]. rewrite Hrunning, Hcached.
  cbn [data anselData DirectoryWorkData.photos isStoreRunning needsStoreFollowup].
  split; [done|]. split; [done|]. split; [done|].
  set (photos := storedPhotos (DirectoryWorkData.photos (anselData cached))
                   photoBasename photoWork).
  assert (Hnil : length (Object_keys photos) = 0%nat → [] = photos).
  { unfold Object_keys. rewrite length_fmap. intros Hempty.
    symmetry. by apply nil_length_inv. }
  unfold storeCycle, storeCycleDone, onDataChanged, isIdle.
  cbn [data anselData needsStoreFollowup isStoreRunning runningFetch fmap option_fmap
       option_map DirectoryWorkData.photos].
  rewrite Hfetching. split.
  - case_bool_decide as Hempty; cbn [fst snd fetchAnselJson DirectoryWorkData.photos
      needsStoreFollowup isStoreRunning runningFetch]; split; auto.
  - split; [done|].
    case_bool_decide as Hempty; cbn [fst snd fetchAnselJson DirectoryWorkData.photos
      needsStoreFollowup isStoreRunning runningFetch]; split; auto.
Qed.

Lemma store_while_promise_pending_witness :
  let dw := default (newDirectoryWork "/photos")
              (storePhotoWork 0 noSidecars (newDirectoryWork "/photos") "a.jpg" flaggedWork) in
  let dw1 := default dw (storePhotoWork 1000 noSidecars dw "b.jpg" flaggedWork) in
  DirectoryWorkData.photos (fetchAnselJson (storeCycle dw1 None).2)
  = [("a.jpg", flaggedWork); ("b.jpg", flaggedWork)] ∧
  isIdle (storeCycleDone (storeCycle dw1 None).1) = true.
Proof.
  intros dw dw1.
  assert (Hdata : is_Some (data dw)) by (eexists; vm_compute; reflexivity).
  assert (Hrunning : isStoreRunning dw = true) by (vm_compute; reflexivity).
  assert (Hfetching : runningFetch dw = false) by (vm_compute; reflexivity).
  assert (Hstore : storePhotoWork 1000 noSidecars dw "b.jpg" flaggedWork = Some dw1)
    by (vm_compute; reflexivity).
  destruct (store_while_promise_pending 1000 noSidecars dw dw1 "b.jpg" flaggedWork None
              Hdata Hrunning Hfetching Hstore)
    as (Hown & _ & _ & [Hwritten Hidle] & _).
  split; [|exact Hidle]. rewrite Hwritten, Hown. vm_compute. reflexivity.
Defined.

(** ** The registry over any sequence of accesses *)

Lemma getDirectoryWork_instance path registry :
  (getDirectoryWork path registry).1
  = default (newDirectoryWork path) (directoryWorkByPath registry !! path).
Proof. unfold getDirectoryWork. by destruct (directoryWorkByPath registry !! path). Qed.

(** An access to one directory keeps the instances of the others, but for
    idle ones, which it may remove. *)
Lemma getDirectoryWork_others path registry dir :
  dir ≠ path →
  directoryWorkByPath (getDirectoryWork path registry).2 !! dir
  = directoryWorkByPath registry !! dir ∨
  (directoryWorkByPath (getDirectoryWork path registry).2 !! dir = None ∧
   ∃ dw, directoryWorkByPath registry !! dir = Some dw ∧ isIdle dw = true).
Proof.
  intros Hdir. destruct (directoryWorkByPath registry !! path) as [dw|] eqn:Hpath.
  { left. unfold getDirectoryWork. by rewrite Hpath. }
  rewrite (getDirectoryWork_miss path registry Hpath). cbn [snd directoryWorkByPath].
  rewrite lookup_insert_ne by done.
  destruct (directoryWorkCacheSize registry >=? maxDirectoryWorkCacheSize)%Z; [|by left].
  rewrite sweep_all_lookup.
  destruct (directoryWorkByPath registry !! dir) as [dw|] eqn:Hdw; [|by left].
  destruct (isIdle dw) eqn:Hidle; [|by left]. right. eauto.
Qed.

Lemma getDirectoryWork_lookup_same path registry :
  directoryWorkByPath (getDirectoryWork path registry).2 !! path
  = Some (getDirectoryWork path registry).1.
Proof.
  destruct (directoryWorkByPath registry !! path) as [dw|] eqn:Hpath.
  - unfold getDirectoryWork. by rewrite Hpath.
  - rewrite (getDirectoryWork_miss path registry Hpath). cbn [fst snd directoryWorkByPath].
    by rewrite lookup_insert_eq.
Qed.

Lemma getDirectoryWork_busy_stays accessed registry path dw :
  directoryWorkByPath registry !! path = Some dw → isIdle dw = false →
  directoryWorkByPath (getDirectoryWork accessed registry).2 !! path = Some dw.
Proof.
  intros Hdw Hbusy. destruct (decide (path = accessed)) as [->|Hne].
  - rewrite getDirectoryWork_lookup_same, getDirectoryWork_instance. by rewrite Hdw.
  - destruct (getDirectoryWork_others accessed registry path Hne)
      as [->|(_ & dw' & Hdw' & Hidle)]; [done|]. congruence.
Qed.

Lemma getDirectoryWork_instances accessed registry path dw :
  directoryWorkByPath (getDirectoryWork accessed registry).2 !! path = Some dw →
  directoryWorkByPath registry !! path = Some dw ∨
  (path = accessed ∧ dw = newDirectoryWork path).
Proof.
  intros Hdw. destruct (decide (path = accessed)) as [->|Hne].
  - rewrite getDirectoryWork_lookup_same, getDirectoryWork_instance in Hdw.
    injection Hdw as <-.
    destruct (directoryWorkByPath registry !! accessed); [by left|by right].
  - destruct (getDirectoryWork_others accessed registry path Hne)
      as [Hsame|(Hnone & _)]; [left; congruence|congruence].
Qed.

(** X20: the registry over any sequence of accesses.  Whatever directories
    are accessed, and however often the registry is full: an instance that
    is not idle stays, the very same; every instance of the registry is one
    it had before or a new one of a directory that was accessed; the
    directory accessed last has an instance; the counter goes on counting
    the instances; and an access to a directory that has an instance
    returns that instance and changes nothing. *)
Theorem registry_keeps_busy_instances (paths : list string) (registry : Registry) :
  (∀ path directoryWork,
     directoryWorkByPath registry !! path = Some directoryWork →
     isIdle directoryWork = false →
     directoryWorkByPath (accessAll paths registry) !! path = Some directoryWork) ∧
  (∀ path directoryWork,
     directoryWorkByPath (accessAll paths registry) !! path = Some directoryWork →
     directoryWorkByPath registry !! path = Some directoryWork ∨
     (path ∈ paths ∧ directoryWork = newDirectoryWork path)) ∧
  (∀ path, list.last paths = Some path →
     is_Some (directoryWorkByPath (accessAll paths registry) !! path)) ∧
  (registryConsistent registry → registryConsistent (accessAll paths registry)) ∧
  (∀ path directoryWork,
     directoryWorkByPath registry !! path = Some directoryWork →
     getDirectoryWork path registry = (directoryWork, registry)).
Proof.
  split; [|split; [|split; [|split]]].
  - revert registry. induction paths as [|accessed paths IH]; intros registry path dw Hdw Hbusy.
    + done.
    + unfold accessAll in *. cbn [foldl]. apply IH; [|done].
      by apply getDirectoryWork_busy_stays.
  - revert registry. induction paths as [|accessed paths IH]; intros registry path dw Hdw.
    + by left.
    + unfold accessAll in *. cbn [foldl] in Hdw.
      destruct (IH _ _ _ Hdw) as [Hbefore|[Hin ->]].
      * destruct (getDirectoryWork_instances _ _ _ _ Hbefore) as [?|[-> ->]]; [by left|].
        right. split; [by left|done].
      * right. split; [by right|done].
  - revert registry. induction paths as [|accessed paths IH]; intros registry path Hlast.
    + done.
    + unfold accessAll in *. cbn [foldl]. destruct paths as [|next paths].
      * injection Hlast as <-. cbn [foldl]. rewrite getDirectoryWork_lookup_same. eauto.
      * apply IH. by rewrite last_cons_cons in Hlast.
  - revert registry. induction paths as [|accessed paths IH]; intros registry Hconsistent.
    + done.
    + unfold accessAll in *. cbn [foldl]. apply IH. by apply getDirectoryWork_consistent.
  - intros path dw Hdw. unfold getDirectoryWork. by rewrite Hdw.
Qed.

(** ** How long a snapshot is served *)

(** X21: the data a fetch of an instance resolved to are served from the
    instance, without a read and without a change of the instance, at
    every time before [lastFetchTime + 30000] and at any time while a store
    promise is pending or a follow-up is needed, whatever the files hold
    by then.  From [lastFetchTime + 30000] on an instance without a store
    promise reads again: a read that succeeds replaces the data and sets
    [lastFetchTime] to the time it settled, a read that fails rejects the
    call and leaves both as they were.  [lastFetchTime] is the time the
    read settled, not the time of the call. *)
Theorem snapshot_served_for_refetch_interval (now : Z) (io : FetchIO)
    (dw dw' : DirectoryWork) (snapshot : DirectoryData) :
  fetchData now io dw = (Some snapshot, dw') →
  (∀ now' io', (now' < lastFetchTime dw' + 30000)%Z →
     fetchData now' io' dw' = (Some snapshot, dw')) ∧
  (∀ now' io', isStoreRunning dw' || needsStoreFollowup dw' = true →
     fetchData now' io' dw' = (Some snapshot, dw')) ∧
  (∀ now' io', (lastFetchTime dw' + 30000 ≤ now')%Z →
     isStoreRunning dw' || needsStoreFollowup dw' = false →
     (fetchData now' io' dw').1 = fetched io' ∧
     data (fetchData now' io' dw').2 = Some (default snapshot (fetched io')) ∧
     lastFetchTime (fetchData now' io' dw').2
     = match fetched io' with
       | Some _ => settledAt io'
       | None => lastFetchTime dw'
       end) ∧
  ((∀ cached, fetchPlan now dw ≠ UseCached cached) → lastFetchTime dw' = settledAt io).
Proof.
  intros Hfetch. destruct (fetchData_Some now io dw snapshot dw' Hfetch) as (Hdata & _ & _).
  split; [|split; [|split]].
  - intros now' io' Hfresh. unfold fetchData, fetchPlan, refetchInterval. rewrite Hdata.
    rewrite (proj2 (Z.ltb_lt _ _) Hfresh). by rewrite orb_true_r.
  - intros now' io' Hstoring. by apply fetchData_while_storing.
  - intros now' io' Hstale Hquiet. unfold fetchData, fetchPlan, refetchInterval.
    rewrite Hdata, Hquiet. rewrite (proj2 (Z.ltb_ge _ _) Hstale). cbn [orb].
    unfold fetchSettled.
    destruct (runningFetch dw'); by destruct (fetched io').
  - intros Hread. unfold fetchData in Hfetch.
    destruct (fetchPlan now dw) as [cached| |] eqn:Hplan; [by destruct (Hread cached)| |];
      unfold fetchSettled in Hfetch;
      destruct (fetched io) as [fetchedData|]; by simplify_eq.
Qed.

Lemma snapshot_served_for_refetch_interval_witness :
  ∃ dw' snapshot,
    fetchData 1000 noSidecars (newDirectoryWork "/photos") = (Some snapshot, dw') ∧
    fetchData 29999 {| anselJson := None; picasaIni := None; settledAt := 29999 |} dw'
    = (Some snapshot, dw').
Proof.
  eexists. eexists. split; [reflexivity|].
  apply (proj1 (snapshot_served_for_refetch_interval 1000 noSidecars
                  (newDirectoryWork "/photos") _ _ eq_refl)).
  reflexivity.
Defined.
